(** * A shallow embedding of the [WebCrawler] class of [src/crawler.js]

    The class keeps its whole state in the fields of one object and mutates
    them from three kinds of callbacks that run on a single JavaScript thread:
    the scheduler loop [crawl], the continuation of [fetchAndProcess] after
    its [await axios.get(url)], and the continuation of [handleRetry] after
    its backoff delay.  Each method is embedded as a function on the record of
    fields; the places where a method suspends ([await]) split it into the
    pieces that run atomically, and a labelled step relation interleaves those
    pieces the way the event loop may. *)

From Stdlib Require Import QArith Lqa Ascii String.
From stdpp Require Import gmap strings list.

Open Scope string_scope.
Open Scope list_scope.
Open Scope Z_scope.

(** ** JavaScript numbers

    [dynamicDelay] and the backoff delay are IEEE binary64 numbers.  The code
    only doubles, halves and compares them, all of which are exact on
    binary64 as long as the result stays in range: a finite number is
    modelled by its exact rational value and the overflow to [Infinity] is
    written out (a doubled binary64 number overflows exactly when the exact
    result reaches 2^1024).  Underflow would need a value below 2^-1021 and
    is not modelled. *)

Inductive number : Type :=
  | Fin (q : Q)
  | Infinity.

Definition overflow_threshold : Q := inject_Z (2 ^ 1024).

Definition round_overflow (q : Q) : number :=
  if Qle_bool overflow_threshold q then Infinity else Fin q.

(** [x * 2] *)
Definition times2 (x : number) : number :=
  match x with
  | Fin q => round_overflow (q * 2)
  | Infinity => Infinity
  end.

(** [x / 2] *)
Definition half (x : number) : number :=
  match x with
  | Fin q => Fin (q / 2)
  | Infinity => Infinity
  end.

(** [Math.max(x, y)] on numbers that are not NaN. *)
Definition Math_max (x y : number) : number :=
  match x, y with
  | Fin p, Fin q => if Qle_bool p q then Fin q else Fin p
  | _, _ => Infinity
  end.

(** [Math.pow(2, n)] for an integer [n >= 0]. *)
Definition Math_pow2 (n : Z) : number :=
  if n <? 1024 then Fin (inject_Z (2 ^ n)) else Infinity.

(** [x <= y] *)
Definition num_le (x y : number) : Prop :=
  match x, y with
  | Fin p, Fin q => (p <= q)%Q
  | _, Infinity => True
  | Infinity, Fin _ => False
  end.

Definition ms (n : Z) : number := Fin (inject_Z n).

(** ** [parseInt(s, 10)]

    Strings are sequences of code units below 256 (Node decodes header
    bytes as latin1).  [parseInt] skips leading white space, reads an
    optional sign and the longest run of decimal digits; with no digit the
    result is NaN, modelled by [None].  The value returned is the
    mathematical integer: this is the JavaScript value for every run below
    2^53, and the test [=== 0] is exact for every input. *)

Definition is_white_space (a : ascii) : bool :=
  let n := Z.of_nat (nat_of_ascii a) in
  ((9 <=? n) && (n <=? 13)) || (n =? 32) || (n =? 160).

Definition digit_of (a : ascii) : option Z :=
  let n := Z.of_nat (nat_of_ascii a) in
  if (48 <=? n) && (n <=? 57) then Some (n - 48) else None.

Fixpoint skip_white_space (s : string) : string :=
  match s with
  | String a r => if is_white_space a then skip_white_space r else s
  | EmptyString => s
  end.

Fixpoint digits_value (acc : Z) (s : string) : Z :=
  match s with
  | String a r =>
      match digit_of a with
      | Some d => digits_value (10 * acc + d) r
      | None => acc
      end
  | EmptyString => acc
  end.

Definition parseInt (s : string) : option Z :=
  let s1 := skip_white_space s in
  let '(sign, s2) :=
    match s1 with
    | String "-" r => (-1, r)
    | String "+" r => (1, r)
    | _ => (1, s1)
    end in
  match s2 with
  | String a _ =>
      match digit_of a with
      | Some _ => Some (sign * digits_value 0 s2)
      | None => None
      end
  | EmptyString => None
  end.

(** ** Errors and promise outcomes *)

Inductive error : Type :=
  | Error (message : string)          (* [new Error(message)] *)
  | TypeError (message : string)      (* thrown by the platform *)
  | ReferenceError (ident : string).  (* an identifier that is not bound *)

(** How the promise of an [async] method whose body has no [await] settles. *)
Inductive settled : Type :=
  | Fulfilled
  | Rejected (e : error).

(** ** The [URL] class of the platform

    [new URL(input)] and [new URL(input, base)] either throw or build an
    object of which the crawler reads [href] and [hostname].  The class is
    Node's, not the repository's: the crawler is embedded over any
    implementation of this interface. *)

Record URL : Type := { href : string; hostname : string }.

Class URL_API : Type :=
  URL_new : string → option string → option URL.

(** Response headers: an object with string values; [None] is [undefined]. *)
Abbreviation headers := (gmap string string).

(** ** The fields of a [WebCrawler] object *)

Record WebCrawler : Type := {
  startUrl : string;
  domainName : string;
  visitedUrls : gset string;
  urlQueue : list string;
  maxConcurrency : Z;
  activeRequests : Z;
  maxRetries : Z;
  retryCounts : gmap string Z;
  crawledData : gmap string (list string);
  failedUrls : gmap string Z;
  dynamicDelay : number
}.

(** Field assignments [this.f = v].  The objects [retryCounts],
    [crawledData] and [failedUrls] are keyed by URL strings only; such a
    key contains a colon and so never names a property inherited from
    [Object.prototype]. *)

Definition set_visitedUrls (v : gset string) (c : WebCrawler) : WebCrawler :=
  {| startUrl := startUrl c; domainName := domainName c; visitedUrls := v;
     urlQueue := urlQueue c; maxConcurrency := maxConcurrency c;
     activeRequests := activeRequests c; maxRetries := maxRetries c;
     retryCounts := retryCounts c; crawledData := crawledData c;
     failedUrls := failedUrls c; dynamicDelay := dynamicDelay c |}.

Definition set_urlQueue (q : list string) (c : WebCrawler) : WebCrawler :=
  {| startUrl := startUrl c; domainName := domainName c;
     visitedUrls := visitedUrls c; urlQueue := q;
     maxConcurrency := maxConcurrency c; activeRequests := activeRequests c;
     maxRetries := maxRetries c; retryCounts := retryCounts c;
     crawledData := crawledData c; failedUrls := failedUrls c;
     dynamicDelay := dynamicDelay c |}.

Definition set_activeRequests (n : Z) (c : WebCrawler) : WebCrawler :=
  {| startUrl := startUrl c; domainName := domainName c;
     visitedUrls := visitedUrls c; urlQueue := urlQueue c;
     maxConcurrency := maxConcurrency c; activeRequests := n;
     maxRetries := maxRetries c; retryCounts := retryCounts c;
     crawledData := crawledData c; failedUrls := failedUrls c;
     dynamicDelay := dynamicDelay c |}.

Definition set_retryCounts (m : gmap string Z) (c : WebCrawler) : WebCrawler :=
  {| startUrl := startUrl c; domainName := domainName c;
     visitedUrls := visitedUrls c; urlQueue := urlQueue c;
     maxConcurrency := maxConcurrency c; activeRequests := activeRequests c;
     maxRetries := maxRetries c; retryCounts := m;
     crawledData := crawledData c; failedUrls := failedUrls c;
     dynamicDelay := dynamicDelay c |}.

Definition set_crawledData (m : gmap string (list string)) (c : WebCrawler)
    : WebCrawler :=
  {| startUrl := startUrl c; domainName := domainName c;
     visitedUrls := visitedUrls c; urlQueue := urlQueue c;
     maxConcurrency := maxConcurrency c; activeRequests := activeRequests c;
     maxRetries := maxRetries c; retryCounts := retryCounts c;
     crawledData := m; failedUrls := failedUrls c;
     dynamicDelay := dynamicDelay c |}.

Definition set_failedUrls (m : gmap string Z) (c : WebCrawler) : WebCrawler :=
  {| startUrl := startUrl c; domainName := domainName c;
     visitedUrls := visitedUrls c; urlQueue := urlQueue c;
     maxConcurrency := maxConcurrency c; activeRequests := activeRequests c;
     maxRetries := maxRetries c; retryCounts := retryCounts c;
     crawledData := crawledData c; failedUrls := m;
     dynamicDelay := dynamicDelay c |}.

Definition set_dynamicDelay (d : number) (c : WebCrawler) : WebCrawler :=
  {| startUrl := startUrl c; domainName := domainName c;
     visitedUrls := visitedUrls c; urlQueue := urlQueue c;
     maxConcurrency := maxConcurrency c; activeRequests := activeRequests c;
     maxRetries := maxRetries c; retryCounts := retryCounts c;
     crawledData := crawledData c; failedUrls := failedUrls c;
     dynamicDelay := d |}.

(** [this.urlQueue.push(url)] *)
Definition push (url : string) (c : WebCrawler) : WebCrawler :=
  set_urlQueue (urlQueue c ++ [url]) c.

(** ** [adjustRateLimit(headers)]  (crawler.js, lines 130-149)

    The method is [async] without any [await]: its body runs to the end or
    to the first throw within the call, and a throw rejects the returned
    promise instead of reaching the caller.  Two places throw.  Reading a
    property of [undefined] headers is a [TypeError].  In the retry-after
    branch the statement after the [parseInt] calls [log], an identifier
    that the module neither declares nor imports (every other message goes
    through [console.log]), so evaluating it is a [ReferenceError] and the
    assignment to [dynamicDelay] that follows is not reached. *)

Definition adjustRateLimit (hs : option headers) (c : WebCrawler)
    : WebCrawler * settled :=
  match hs with
  | None => (c, Rejected (TypeError "Cannot read properties of undefined"))
  | Some h =>
      let c1 :=
        match h !! "x-ratelimit-remaining" with
        | Some v =>
            let remaining := parseInt v in
            match remaining with
            | Some 0 =>
                set_dynamicDelay
                  (Math_max (times2 (dynamicDelay c)) (ms 1000)) c
            | _ =>
                set_dynamicDelay
                  (Math_max (ms 100) (half (dynamicDelay c))) c
            end
        | None => c
        end in
      match h !! "retry-after" with
      | Some v =>
          let retryAfter := (λ n, n * 1000) <$> parseInt v in
          (c1, Rejected (ReferenceError "log"))
      | None => (c1, Fulfilled)
      end
  end.

(** ** Pages

    [cheerio.load(html)('a[href]')] selects the anchor elements that carry an
    [href] attribute, in document order, and [attr('href')] reads the
    attribute.  HTML parsing is the library's; a page is given by the
    sequence of these attribute values. *)

Abbreviation html := (list string).

(** ** [new Set(links)] and [[...set]]

    A JavaScript [Set] iterates in insertion order and ignores the insertion
    of a member it already has. *)

Definition Set_add (x : string) (s : list string) : list string :=
  if decide (x ∈ s) then s else s ++ [x].

Definition Set_from (l : list string) : list string :=
  foldl (λ s x, Set_add x s) [] l.

(** What the axios promise of a fetch settles to: a response with its body
    and headers, or an error whose [response?.headers] may be undefined. *)
Inductive response : Type :=
  | Resolved (data : html) (hs : option headers)
  | Failed (hs : option headers).

(** A call of [handleRetry] suspended in [await this.delay(...)]. *)
Record retry : Type := {
  retry_url : string;
  retry_headers : option headers;
  retry_delay : number
}.

(** The constructor either returns the object or throws; a throw carries the
    names of the fields of [this] that were assigned before it. *)
Inductive construction : Type :=
  | Constructed (c : WebCrawler)
  | Threw (e : error) (assigned : list string).

Section Crawler.

Context `{URL_API}.

(** ** [constructor(startUrl, maxConcurrency = 5, maxRetries = 3)]
    (lines 7-28).  An argument that is not passed is [None]; [!startUrl]
    holds for a missing argument and for the empty string. *)

Definition constructor (startUrl0 : option string)
    (maxConcurrency0 maxRetries0 : option Z) : construction :=
  match startUrl0 with
  | None | Some "" => Threw (Error "Start URL is required.") []
  | Some s =>
      match URL_new s None with
      | None => Threw (Error "Invalid URL provided.") ["startUrl"]
      | Some u =>
          Constructed
            {| startUrl := s;
               domainName := hostname u;
               visitedUrls := ∅;
               urlQueue := [s];
               maxConcurrency := default 5 maxConcurrency0;
               activeRequests := 0;
               maxRetries := default 3 maxRetries0;
               retryCounts := ∅;
               crawledData := ∅;
               failedUrls := ∅;
               dynamicDelay := ms 100 |}
      end
  end.

(** ** [extractLinks(html, baseUrl)]  (lines 112-128) *)

Definition extractLinks (page : html) (baseUrl : string) : list string :=
  foldl
    (λ links attr,
       match URL_new attr (Some baseUrl) with
       | Some absoluteUrl => links ++ [href absoluteUrl]
       | None => links
       end)
    [] page.

(** ** [handleRetry(url, headers)]  (lines 85-109)

    [handleRetry_begin] is the part that runs inside the call, up to the
    [await] of the backoff delay or to the end of the [else] branch;
    [handleRetry_resume] is the part that runs when the delay has passed. *)

Definition handleRetry_begin (url : string) (hs : option headers)
    (c : WebCrawler) : WebCrawler * option retry :=
  let c1 :=
    match retryCounts c !! url with
    | None => set_retryCounts (<[url := 0]> (retryCounts c)) c
    | Some _ => c
    end in
  let n := default 0 (retryCounts c1 !! url) in
  if n <? maxRetries c1 then
    let c2 := set_retryCounts (<[url := n + 1]> (retryCounts c1)) c1 in
    let exxponentialBackOffDelay := Math_pow2 ((n + 1) * 100) in
    (c2, Some {| retry_url := url; retry_headers := hs;
                 retry_delay := exxponentialBackOffDelay |})
  else
    (set_failedUrls (<[url := n]> (failedUrls c1)) c1, None).

Definition handleRetry_resume (r : retry) (c : WebCrawler) : WebCrawler :=
  let c1 :=
    match retry_headers r with
    | Some h => fst (adjustRateLimit (Some h) c)
    | None => c
    end in
  push (retry_url r) c1.

(** An awaited call, [await crawler.handleRetry(url, headers)], with nothing
    else running in between. *)
Definition handleRetry (url : string) (hs : option headers) (c : WebCrawler)
    : WebCrawler :=
  match handleRetry_begin url hs c with
  | (c1, Some r) => handleRetry_resume r c1
  | (c1, None) => c1
  end.

(** ** [fetchAndProcess(url)]  (lines 53-82)

    The loop of lines 71-75.  [new URL(link)] is only evaluated for a link
    that is not visited; if it throws, the loop is left for the [catch]. *)

Fixpoint enqueue_links (links : list string) (c : WebCrawler)
    : WebCrawler * option error :=
  match links with
  | [] => (c, None)
  | link :: rest =>
      if decide (link ∈ visitedUrls c) then enqueue_links rest c
      else
        match URL_new link None with
        | None => (c, Some (TypeError "Invalid URL"))
        | Some u =>
            if decide (hostname u = domainName c)
            then enqueue_links rest (push link c)
            else enqueue_links rest c
        end
  end.

(** The method from the point where the axios promise has settled.  The
    result holds the call of [handleRetry] that the [catch] clause started
    and did not await, when it is suspended in its delay. *)
Definition fetchAndProcess (url : string) (r : response) (c : WebCrawler)
    : WebCrawler * option retry :=
  match r with
  | Resolved data hs =>
      let links := extractLinks data url in
      let uniqueLinks := Set_from links in
      let c1 := set_crawledData (<[url := uniqueLinks]> (crawledData c)) c in
      let c2 := fst (adjustRateLimit hs c1) in
      match enqueue_links links c2 with
      | (c3, None) => (c3, None)
      | (c3, Some _) => handleRetry_begin url None c3
      end
  | Failed hs => handleRetry_begin url hs c
  end.

(** ** [crawl()]  (lines 31-50): one evaluation of the loop condition and,
    when it holds, of the loop body. *)

Inductive iteration : Type :=
  | Dispatched (url : string)   (* [fetchAndProcess(url)] was started *)
  | Skipped (url : string)      (* [url] was shifted and found visited *)
  | Delayed (d : number)        (* [await this.delay(this.dynamicDelay)] *)
  | Complete.                   (* the loop is left *)

Definition crawl_iteration (c : WebCrawler) : WebCrawler * iteration :=
  if (0 <? Z.of_nat (length (urlQueue c))) || (0 <? activeRequests c) then
    if (activeRequests c <? maxConcurrency c)
       && (0 <? Z.of_nat (length (urlQueue c)))
    then
      match urlQueue c with
      | url :: rest =>
          let c1 := set_urlQueue rest c in
          if decide (url ∈ visitedUrls c1) then (c1, Skipped url)
          else
            let c2 := set_visitedUrls ({[url]} ∪ visitedUrls c1) c1 in
            let c3 := set_activeRequests (activeRequests c2 + 1) c2 in
            (c3, Dispatched url)
      | [] => (c, Delayed (dynamicDelay c))  (* not reached: length > 0 *)
      end
    else (c, Delayed (dynamicDelay c))
  else (c, Complete).

(** ** A crawling session

    Besides the object, a session has the calls that are suspended: the
    scheduler loop (until it completes), the fetches waiting for axios, the
    [finally] callbacks of the fetches that have settled, and the retries
    waiting for their delay.  A step resumes one of them and runs it to its
    next suspension.  The relation allows every order of resumption; the
    event loop realises some of them (the loop, for one, goes through its
    dispatching iterations without suspending), and a session may also stop
    early, as when Node ends the process on the unhandled rejection of
    [adjustRateLimit].  What holds of every run of the relation therefore
    holds of every run of the program. *)

Record session : Type := {
  this : WebCrawler;
  crawling : bool;
  fetching : list string;
  settling : nat;
  retrying : list retry
}.

Definition start (c : WebCrawler) : session :=
  {| this := c; crawling := true; fetching := []; settling := 0%nat;
     retrying := [] |}.

Inductive event : Type :=
  | Dispatch (url : string)
  | Skip (url : string)
  | Delay (d : number)
  | Finish
  | Fetch (url : string) (r : response)
  | Finally
  | Requeue (url : string).

Definition with_retry (o : option retry) (l : list retry) : list retry :=
  match o with
  | Some r => r :: l
  | None => l
  end.

Inductive step : session → event → session → Prop :=
  | step_dispatch s c url :
      crawling s = true →
      crawl_iteration (this s) = (c, Dispatched url) →
      step s (Dispatch url)
        {| this := c; crawling := true; fetching := url :: fetching s;
           settling := settling s; retrying := retrying s |}
  | step_skip s c url :
      crawling s = true →
      crawl_iteration (this s) = (c, Skipped url) →
      step s (Skip url)
        {| this := c; crawling := true; fetching := fetching s;
           settling := settling s; retrying := retrying s |}
  | step_delay s c d :
      crawling s = true →
      crawl_iteration (this s) = (c, Delayed d) →
      step s (Delay d)
        {| this := c; crawling := true; fetching := fetching s;
           settling := settling s; retrying := retrying s |}
  | step_finish s c :
      crawling s = true →
      crawl_iteration (this s) = (c, Complete) →
      step s Finish
        {| this := c; crawling := false; fetching := fetching s;
           settling := settling s; retrying := retrying s |}
  | step_fetch s f1 f2 url r c o :
      fetching s = f1 ++ url :: f2 →
      fetchAndProcess url r (this s) = (c, o) →
      step s (Fetch url r)
        {| this := c; crawling := crawling s; fetching := f1 ++ f2;
           settling := S (settling s);
           retrying := with_retry o (retrying s) |}
  | step_finally s n :
      settling s = S n →
      step s Finally
        {| this := set_activeRequests (activeRequests (this s) - 1) (this s);
           crawling := crawling s; fetching := fetching s;
           settling := n; retrying := retrying s |}
  | step_requeue s r1 r2 r :
      retrying s = r1 ++ r :: r2 →
      step s (Requeue (retry_url r))
        {| this := handleRetry_resume r (this s); crawling := crawling s;
           fetching := fetching s; settling := settling s;
           retrying := r1 ++ r2 |}.

Inductive run : session → list event → session → Prop :=
  | run_nil s : run s [] s
  | run_cons s e s1 t s2 : step s e s1 → run s1 t s2 → run s (e :: t) s2.

End Crawler.

(** ** A [URL] implementation for closed examples

    The examples below run the crawler on the addresses of the repository's
    test-suite.  [http_URL] implements the fragment of the WHATWG URL
    parser that these addresses need: an absolute input is [http://] or
    [https://] followed by a non-empty host in lower case and an optional
    path, query and fragment; a relative input is empty, a fragment, a
    query, scheme-relative, an absolute path or a relative path.  Ports,
    credentials, percent-encoding, dot segments and other schemes are
    outside the fragment. *)

Module HttpURL.

Fixpoint strip_prefix (p s : string) : option string :=
  match p, s with
  | EmptyString, _ => Some s
  | String a p', String b s' =>
      if Ascii.eqb a b then strip_prefix p' s' else None
  | String _ _, EmptyString => None
  end.

Fixpoint span_until (stop : ascii → bool) (s : string) : string * string :=
  match s with
  | EmptyString => (EmptyString, EmptyString)
  | String a r =>
      if stop a then (EmptyString, s)
      else let '(x, y) := span_until stop r in (String a x, y)
  end.

Definition ends_host (a : ascii) : bool :=
  Ascii.eqb a "/" || Ascii.eqb a "?" || Ascii.eqb a "#".

Definition ends_path (a : ascii) : bool :=
  Ascii.eqb a "?" || Ascii.eqb a "#".

Definition ends_query (a : ascii) : bool := Ascii.eqb a "#".

Fixpoint has_slash (s : string) : bool :=
  match s with
  | EmptyString => false
  | String a r => Ascii.eqb a "/" || has_slash r
  end.

(** The path up to and including its last slash. *)
Fixpoint directory (path : string) : string :=
  match path with
  | EmptyString => EmptyString
  | String a r =>
      if has_slash r then String a (directory r)
      else if Ascii.eqb a "/" then "/" else EmptyString
  end.

Record parts : Type := {
  scheme : string;   (* with its colon *)
  host : string;
  rest : string      (* path, query and fragment; starts with a slash *)
}.

Definition after_scheme (sch r : string) : option parts :=
  let '(h, tail) := span_until ends_host r in
  match h with
  | EmptyString => None
  | _ =>
      let tail' :=
        match tail with
        | String "/" _ => tail
        | _ => "/" +:+ tail
        end in
      Some {| scheme := sch; host := h; rest := tail' |}
  end.

Definition absolute (input : string) : option parts :=
  match strip_prefix "http://" input with
  | Some r => after_scheme "http:" r
  | None =>
      match strip_prefix "https://" input with
      | Some r => after_scheme "https:" r
      | None => None
      end
  end.

Definition relative (input : string) (b : parts) : option parts :=
  let origin r := Some {| scheme := scheme b; host := host b; rest := r |} in
  let '(path, _) := span_until ends_path (rest b) in
  let '(path_query, _) := span_until ends_query (rest b) in
  match input with
  | EmptyString => origin path_query
  | String "#" _ => origin (path_query +:+ input)
  | String "?" _ => origin (path +:+ input)
  | String "/" (String "/" _) => absolute (scheme b +:+ input)
  | String "/" _ => origin input
  | _ => origin (directory path +:+ input)
  end.

Definition serialize (p : parts) : URL :=
  {| href := scheme p +:+ "//" +:+ host p +:+ rest p; hostname := host p |}.

Definition parse (input : string) (base : option string) : option URL :=
  match absolute input with
  | Some p => Some (serialize p)
  | None =>
      match base with
      | None => None
      | Some b =>
          match absolute b with
          | None => None
          | Some bp => serialize <$> relative input bp
          end
      end
  end.

End HttpURL.

#[export] Instance http_URL : URL_API := HttpURL.parse.

(** The crawler that the test-suite builds before each test:
    [new WebCrawler('http://example.com')]. *)
Definition example_crawler : WebCrawler :=
  {| startUrl := "http://example.com";
     domainName := "example.com";
     visitedUrls := ∅;
     urlQueue := ["http://example.com"];
     maxConcurrency := 5;
     activeRequests := 0;
     maxRetries := 3;
     retryCounts := ∅;
     crawledData := ∅;
     failedUrls := ∅;
     dynamicDelay := ms 100 |}.

(** ** Notions used to state the properties *)

(** Consecutive calls of [adjustRateLimit], one per element of [hss]. *)
Definition adjustRateLimit_calls (hss : list (option headers))
    (c : WebCrawler) : WebCrawler :=
  foldl (λ c' hs, fst (adjustRateLimit hs c')) c hss.

(** The distinct entries of a list, each at the place of its first
    occurrence. *)
Fixpoint first_occurrences (l : list string) : list string :=
  match l with
  | [] => []
  | x :: r => x :: filter (λ y, y ≠ x) (first_occurrences r)
  end.

(** How many times [x] occurs in [l]. *)
Definition occurrences (x : string) (l : list string) : nat :=
  length (filter (λ y, y = x) l).

Section Statements.

Context `{URL_API}.

(** [new URL(link).hostname === this.domainName] *)
Definition in_domain (c : WebCrawler) (link : string) : bool :=
  match URL_new link None with
  | Some u => bool_decide (hostname u = domainName c)
  | None => false
  end.

(** Three awaited calls of [handleRetry] for the same URL. *)
Definition three_failures (url : string) (h1 h2 h3 : option headers)
    (c : WebCrawler) : WebCrawler :=
  handleRetry url h3 (handleRetry url h2 (handleRetry url h1 c)).

(** The retry scenario the way the specification words it: the failed
    record already holds 3 after the third call. *)
Definition retry_scenario_as_specified (url : string) (c : WebCrawler)
    : Prop :=
  let c3 := three_failures url None None None c in
  let c4 := handleRetry url None c3 in
  retryCounts c3 !! url = Some 3 ∧ failedUrls c3 !! url = Some 3
  ∧ retryCounts c4 !! url = Some 3 ∧ urlQueue c4 = urlQueue c3
  ∧ failedUrls c4 !! url = Some 3.

(** Empty hrefs are dropped: a page and the page without its empty hrefs
    give the same links. *)
Definition empty_hrefs_dropped (page : html) (baseUrl : string) : Prop :=
  extractLinks page baseUrl
  = extractLinks (filter (λ a, a ≠ "") page) baseUrl.

(** Every extracted link of the session's domain is appended to the queue,
    visited or not. *)
Definition enqueues_every_domain_link (url : string) (data : html)
    (hs : option headers) (c : WebCrawler) : Prop :=
  urlQueue (fetchAndProcess url (Resolved data hs) c).1
  = urlQueue c ++ filter (λ l, in_domain c l) (extractLinks data url).

(** [new URL(u).hostname] is [d]. *)
Definition hostname_is (d u : string) : Prop :=
  hostname <$> URL_new u None = Some d.

(** The addresses a session still works on: those waiting for axios and
    those waiting for their retry delay. *)
Definition in_flight (s : session) (u : string) : Prop :=
  u ∈ fetching s ∨ ∃ r, r ∈ retrying s ∧ retry_url r = u.

(** Everything in flight, and every key of the two records, has passed the
    visited gate; every visited address has been dispatched. *)
Definition gate_invariant (t : list event) (s : session) : Prop :=
  (∀ u, in_flight s u → u ∈ visitedUrls (this s))
  ∧ (∀ u, u ∈ visitedUrls (this s) → Dispatch u ∈ t)
  ∧ dom (crawledData (this s)) ⊆ visitedUrls (this s)
  ∧ dom (failedUrls (this s)) ⊆ visitedUrls (this s).

(** The queue, the addresses in flight and the addresses dispatched so far
    all have the hostname [d], which is the session's domain. *)
Definition domain_invariant (d : string) (t : list event) (s : session)
    : Prop :=
  domainName (this s) = d
  ∧ (∀ u, u ∈ urlQueue (this s) → hostname_is d u)
  ∧ (∀ u, in_flight s u → hostname_is d u)
  ∧ (∀ u, Dispatch u ∈ t → hostname_is d u).

(** Every entry of the crawl record was written by a successful fetch of
    its key, from the links of the page that fetch returned. *)
Definition record_invariant (t : list event) (s : session) : Prop :=
  ∀ u ls, crawledData (this s) !! u = Some ls →
    ∃ data hs, Fetch u (Resolved data hs) ∈ t
               ∧ ls = Set_from (extractLinks data u).

End Statements.

(** The fields that hold crawling state. *)
Definition crawling_state : list string :=
  ["visitedUrls"; "urlQueue"; "retryCounts"; "crawledData"; "failedUrls"].

(** The crawler of [new WebCrawler('http://example.com/')] after the loop
    of [crawl] has dispatched the seed. *)
Definition seed_dispatched : WebCrawler :=
  {| startUrl := "http://example.com/";
     domainName := "example.com";
     visitedUrls := {["http://example.com/"]};
     urlQueue := [];
     maxConcurrency := 5;
     activeRequests := 1;
     maxRetries := 3;
     retryCounts := ∅;
     crawledData := ∅;
     failedUrls := ∅;
     dynamicDelay := ms 100 |}.

(** The page of the test "should handle invalid links gracefully". *)
Definition test_page : html :=
  ["http://valid-link.com"; "invalid-link"; ""; "http://valid-link-2.com"].

(** ** Two sessions of [new WebCrawler('http://example.com')]

    In the first the fetch of the seed fails once: the retry handler
    requeues the seed, the loop shifts it, finds it visited and completes.
    In the second the fetch succeeds on a page with four anchors. *)

Definition retry_events_before : list event :=
  [Dispatch "http://example.com";
   Fetch "http://example.com" (Failed None);
   Finally].

Definition retry_events_after : list event :=
  [Skip "http://example.com"; Finish].

Definition retry_session_end : session :=
  {| this :=
       {| startUrl := "http://example.com";
          domainName := "example.com";
          visitedUrls := {["http://example.com"]};
          urlQueue := [];
          maxConcurrency := 5;
          activeRequests := 0;
          maxRetries := 3;
          retryCounts := {["http://example.com" := 1]};
          crawledData := ∅;
          failedUrls := ∅;
          dynamicDelay := ms 100 |};
     crawling := false; fetching := []; settling := 0%nat; retrying := [] |}.

Definition fetched_page : html :=
  ["/a"; "/b"; "/a"; "http://other.org/x"].

Definition fetch_events : list event :=
  [Dispatch "http://example.com";
   Fetch "http://example.com" (Resolved fetched_page None);
   Finally].

Definition fetch_session_end : session :=
  {| this :=
       {| startUrl := "http://example.com";
          domainName := "example.com";
          visitedUrls := {["http://example.com"]};
          urlQueue :=
            ["http://example.com/a"; "http://example.com/b";
             "http://example.com/a"];
          maxConcurrency := 5;
          activeRequests := 0;
          maxRetries := 3;
          retryCounts := ∅;
          crawledData :=
            {["http://example.com" :=
                ["http://example.com/a"; "http://example.com/b";
                 "http://other.org/x"]]};
          failedUrls := ∅;
          dynamicDelay := ms 100 |};
     crawling := true; fetching := []; settling := 0%nat; retrying := [] |}.

(** A session of [new WebCrawler('http://example.com', 5, 0)], which allows
    no retry, after the fetch of the seed has failed. *)
Definition no_retry_crawler : WebCrawler :=
  {| startUrl := "http://example.com";
     domainName := "example.com";
     visitedUrls := ∅;
     urlQueue := ["http://example.com"];
     maxConcurrency := 5;
     activeRequests := 0;
     maxRetries := 0;
     retryCounts := ∅;
     crawledData := ∅;
     failedUrls := ∅;
     dynamicDelay := ms 100 |}.

Definition no_retry_events : list event :=
  [Dispatch "http://example.com";
   Fetch "http://example.com" (Failed None)].

Definition no_retry_session_end : session :=
  {| this :=
       {| startUrl := "http://example.com";
          domainName := "example.com";
          visitedUrls := {["http://example.com"]};
          urlQueue := [];
          maxConcurrency := 5;
          activeRequests := 1;
          maxRetries := 0;
          retryCounts := {["http://example.com" := 0]};
          crawledData := ∅;
          failedUrls := {["http://example.com" := 0]};
          dynamicDelay := ms 100 |};
     crawling := true; fetching := []; settling := 1%nat; retrying := [] |}.

(** ** Notions used to state further properties of the code *)

(** [x === y] on numbers. *)
Definition num_eq (x y : number) : Prop :=
  match x, y with
  | Fin p, Fin q => (p == q)%Q
  | Infinity, Infinity => True
  | _, _ => False
  end.

(** The addresses of the [Dispatch] events of a run, in order. *)
Definition dispatched (t : list event) : list string :=
  omap (λ e, match e with Dispatch u => Some u | _ => None end) t.

(** The addresses of the [Requeue] events of a run, in order. *)
Definition requeued (t : list event) : list string :=
  omap (λ e, match e with Requeue u => Some u | _ => None end) t.

(** Every retry count lies between 0 and [maxRetries] (or is 0 when
    [maxRetries] is negative). *)
Definition counts_within (c : WebCrawler) : Prop :=
  ∀ u n, retryCounts c !! u = Some n → 0 ≤ n ≤ Z.max 0 (maxRetries c).

Section MoreStatements.

Context `{URL_API}.

(** Awaited calls of [handleRetry], one per element of [calls]. *)
Definition handleRetry_calls (calls : list (string * option headers))
    (c : WebCrawler) : WebCrawler :=
  foldl (λ c' call, handleRetry call.1 call.2 c') c calls.

(** [activeRequests] counts the fetches that wait for axios or for their
    [finally] callback, and stays within the ceiling. *)
Definition flight_invariant (s : session) : Prop :=
  activeRequests (this s) = Z.of_nat (length (fetching s) + settling s)
  ∧ activeRequests (this s) ≤ Z.max 0 (maxConcurrency (this s)).

(** An address waits for axios at most once at a time, and while it waits
    none of the three objects has an entry for it; all their keys are
    visited. *)
Definition book_invariant (s : session) : Prop :=
  NoDup (fetching s)
  ∧ (∀ u, u ∈ fetching s →
       u ∈ visitedUrls (this s)
       ∧ crawledData (this s) !! u = None
       ∧ failedUrls (this s) !! u = None
       ∧ retryCounts (this s) !! u = None)
  ∧ dom (crawledData (this s)) ⊆ visitedUrls (this s)
  ∧ dom (failedUrls (this s)) ⊆ visitedUrls (this s)
  ∧ dom (retryCounts (this s)) ⊆ visitedUrls (this s).

(** No address was dispatched twice, and the visited set holds exactly the
    addresses dispatched. *)
Definition dispatch_invariant (t : list event) (s : session) : Prop :=
  NoDup (dispatched t)
  ∧ ∀ u, u ∈ visitedUrls (this s) ↔ u ∈ dispatched t.


(** With at least one retry allowed, no address is recorded as failed and
    no retry count differs from 1. *)
Definition single_retry_invariant (s : session) : Prop :=
  failedUrls (this s) = ∅
  ∧ ∀ u n, retryCounts (this s) !! u = Some n → n = 1.

End MoreStatements.

(** ** Further example sessions of [new WebCrawler('http://example.com')] *)

(** The session with the successful fetch, before the [finally] callback
    of the fetch has run. *)
Definition fetch_session_settling : session :=
  {| this :=
       {| startUrl := "http://example.com";
          domainName := "example.com";
          visitedUrls := {["http://example.com"]};
          urlQueue :=
            ["http://example.com/a"; "http://example.com/b";
             "http://example.com/a"];
          maxConcurrency := 5;
          activeRequests := 1;
          maxRetries := 3;
          retryCounts := ∅;
          crawledData :=
            {["http://example.com" :=
                ["http://example.com/a"; "http://example.com/b";
                 "http://other.org/x"]]};
          failedUrls := ∅;
          dynamicDelay := ms 100 |};
     crawling := true; fetching := []; settling := 1%nat; retrying := [] |}.

(** The fetch of the seed fails and the loop completes before the backoff
    delay of the retry has passed; the retry requeues the seed afterwards. *)
Definition late_retry_session_end : session :=
  {| this :=
       {| startUrl := "http://example.com";
          domainName := "example.com";
          visitedUrls := {["http://example.com"]};
          urlQueue := ["http://example.com"];
          maxConcurrency := 5;
          activeRequests := 0;
          maxRetries := 3;
          retryCounts := {["http://example.com" := 1]};
          crawledData := ∅;
          failedUrls := ∅;
          dynamicDelay := ms 100 |};
     crawling := false; fetching := []; settling := 0%nat; retrying := [] |}.

(** [new WebCrawler('http://example.com', 0)] *)
Definition no_concurrency_crawler : WebCrawler :=
  {| startUrl := "http://example.com";
     domainName := "example.com";
     visitedUrls := ∅;
     urlQueue := ["http://example.com"];
     maxConcurrency := 0;
     activeRequests := 0;
     maxRetries := 3;
     retryCounts := ∅;
     crawledData := ∅;
     failedUrls := ∅;
     dynamicDelay := ms 100 |}.

Example http_URL_absolute :
  URL_new "http://valid-link.com" (Some "http://example.com")
  = Some {| href := "http://valid-link.com/"; hostname := "valid-link.com" |}.
Proof. reflexivity. Qed.

Example http_URL_relative :
  URL_new "invalid-link" (Some "http://example.com")
  = Some {| href := "http://example.com/invalid-link";
            hostname := "example.com" |}.
Proof. reflexivity. Qed.

Example http_URL_empty :
  URL_new "" (Some "http://example.com")
  = Some {| href := "http://example.com/"; hostname := "example.com" |}.
Proof. reflexivity. Qed.

Example http_URL_no_scheme : URL_new "invalid-url" None = None.
Proof. reflexivity. Qed.

Example constructor_example :
  constructor (Some "http://example.com") None None
  = Constructed example_crawler.
Proof. reflexivity. Qed.

Example extractLinks_page1 :
  extractLinks ["/link1"; "/link2"] "http://example.com"
  = ["http://example.com/link1"; "http://example.com/link2"].
Proof. reflexivity. Qed.

Example crawl_dispatches_seed c :
  constructor (Some "http://example.com/") None None = Constructed c →
  crawl_iteration c = (seed_dispatched, Dispatched "http://example.com/").
Proof. intros [= <-]. reflexivity. Qed.

(** * The rate controller *)

Lemma Math_max_floor_l x : num_le (ms 100) (Math_max (ms 100) x).
Proof.
  destruct x as [q|]; simpl; [|done].
  destruct (Qle_bool _ q) eqn:E; simpl.
  - by apply Qle_bool_iff.
  - apply Qle_refl.
Qed.

Lemma Math_max_floor_r x : num_le (ms 100) (Math_max x (ms 1000)).
Proof.
  destruct x as [q|]; simpl; [|done].
  destruct (Qle_bool q _) eqn:E; simpl; [done|].
  destruct (Qlt_le_dec (inject_Z 1000) q) as [Hlt|Hle].
  - apply Qlt_le_weak. eapply Qle_lt_trans; [|exact Hlt]. done.
  - apply Qle_bool_iff in Hle. congruence.
Qed.

(** The only field [adjustRateLimit] assigns is [dynamicDelay], and the
    value it leaves there is at least 100 if the old one was. *)
Lemma adjustRateLimit_delay hs c :
  ∃ d, (adjustRateLimit hs c).1 = set_dynamicDelay d c
       ∧ (num_le (ms 100) (dynamicDelay c) → num_le (ms 100) d).
Proof.
  destruct c. unfold adjustRateLimit.
  destruct hs as [h|]; simpl.
  2:{ eexists; split; [reflexivity|done]. }
  destruct (h !! "x-ratelimit-remaining") as [v|]; simpl.
  - destruct (parseInt v) as [[| |]|]; destruct (h !! "retry-after");
      eexists; (split; [reflexivity|]); intros _;
      first [apply Math_max_floor_l | apply Math_max_floor_r].
  - destruct (h !! "retry-after"); simpl; eexists; (split; [reflexivity|done]).
Qed.

Lemma adjustRateLimit_floor hs c :
  num_le (ms 100) (dynamicDelay c) →
  num_le (ms 100) (dynamicDelay (adjustRateLimit hs c).1).
Proof.
  intros Hc. destruct (adjustRateLimit_delay hs c) as (d & -> & Hd). by apply Hd.
Qed.

Lemma adjustRateLimit_calls_floor hss c :
  num_le (ms 100) (dynamicDelay c) →
  num_le (ms 100) (dynamicDelay (adjustRateLimit_calls hss c)).
Proof.
  revert c. induction hss as [|hs hss IH]; intros c Hc; [done|].
  apply IH. by apply adjustRateLimit_floor.
Qed.

(** C6: starting from the initial delay of 100 ms, the shared delay is at
    least 100 ms after any sequence of calls of [adjustRateLimit], whatever
    the headers of each call (undefined headers included). *)
Theorem dynamicDelay_never_below_100 (c : WebCrawler)
    (hss : list (option headers)) :
  dynamicDelay c = ms 100 →
  num_le (ms 100) (dynamicDelay (adjustRateLimit_calls hss c)).
Proof.
  intros Hc. apply adjustRateLimit_calls_floor. rewrite Hc. simpl. apply Qle_refl.
Qed.

Lemma dynamicDelay_never_below_100_witness :
  num_le (ms 100)
    (dynamicDelay
       (adjustRateLimit_calls
          [Some {["x-ratelimit-remaining" := "0"]};
           Some {["x-ratelimit-remaining" := "7"]};
           None;
           Some {["retry-after" := "5"]}]
          example_crawler)).
Proof. apply (dynamicDelay_never_below_100 example_crawler). reflexivity. Defined.

Example quota_exhausted_doubles :
  dynamicDelay
    (adjustRateLimit (Some {["x-ratelimit-remaining" := "0"]}) example_crawler).1
  = ms 1000.
Proof. reflexivity. Qed.

(** In the retry-after branch the call of the unbound [log] rejects the
    promise, and the delay is what the quota branch alone leaves: the
    header has no effect on it. *)
Lemma adjustRateLimit_retry_after (h : headers) (v : string) (c : WebCrawler) :
  h !! "retry-after" = Some v →
  (adjustRateLimit (Some h) c).2 = Rejected (ReferenceError "log")
  ∧ (adjustRateLimit (Some h) c).1
    = (adjustRateLimit (Some (delete "retry-after" h)) c).1.
Proof.
  intros Hv. unfold adjustRateLimit. rewrite Hv, lookup_delete_eq.
  rewrite lookup_delete_ne by done. done.
Qed.

(** C2: with [retry-after: 5] and a delay of 100 ms the call leaves the
    delay at 100 ms, below the 5000 ms the header asks for, and its promise
    is rejected. *)
Theorem retry_after_is_not_applied :
  let r := adjustRateLimit (Some {["retry-after" := "5"]}) example_crawler in
  dynamicDelay r.1 = ms 100
  ∧ ¬ num_le (ms 5000) (dynamicDelay r.1)
  ∧ r.2 = Rejected (ReferenceError "log").
Proof. simpl. split_and!; [done| |done]. by vm_compute. Qed.

(** * The retry handler *)

Section Retry.

(** A call for a URL whose count is below [maxRetries]: the count goes up
    by one and the call suspends. *)
Lemma handleRetry_begin_below url hs c n :
  default 0 (retryCounts c !! url) = n → n < maxRetries c →
  handleRetry_begin url hs c
  = (set_retryCounts (<[url := n + 1]> (retryCounts c)) c,
     Some {| retry_url := url; retry_headers := hs;
             retry_delay := Math_pow2 ((n + 1) * 100) |}).
Proof.
  intros Hn Hlt. unfold handleRetry_begin.
  destruct (retryCounts c !! url) as [k|] eqn:E; simpl in *; subst.
  - rewrite E. simpl. rewrite (proj2 (Z.ltb_lt _ _) Hlt). done.
  - rewrite lookup_insert_eq. simpl. rewrite (proj2 (Z.ltb_lt _ _) Hlt).
    unfold set_retryCounts; simpl. by rewrite insert_insert_eq.
Qed.

(** A call for a URL whose count has reached [maxRetries]: the count is
    written to [failedUrls] and nothing else happens. *)
Lemma handleRetry_begin_exhausted url hs c n :
  retryCounts c !! url = Some n → maxRetries c ≤ n →
  handleRetry_begin url hs c
  = (set_failedUrls (<[url := n]> (failedUrls c)) c, None).
Proof.
  intros E Hge. unfold handleRetry_begin. rewrite E. simpl. rewrite E. simpl.
  by rewrite (proj2 (Z.ltb_ge _ _) Hge).
Qed.

Lemma handleRetry_resume_fields r c :
  ∃ d, handleRetry_resume r c
       = set_urlQueue (urlQueue c ++ [retry_url r]) (set_dynamicDelay d c).
Proof.
  unfold handleRetry_resume. destruct (retry_headers r) as [h|].
  - destruct (adjustRateLimit_delay (Some h) c) as (d & -> & _). by exists d.
  - exists (dynamicDelay c). by destruct c.
Qed.

Lemma handleRetry_below url hs c n :
  default 0 (retryCounts c !! url) = n → n < maxRetries c →
  ∃ d, handleRetry url hs c
       = set_urlQueue (urlQueue c ++ [url])
           (set_dynamicDelay d
              (set_retryCounts (<[url := n + 1]> (retryCounts c)) c)).
Proof.
  intros Hn Hlt. unfold handleRetry.
  rewrite (handleRetry_begin_below url hs c n Hn Hlt).
  edestruct handleRetry_resume_fields as [d ->]. by exists d.
Qed.

Lemma handleRetry_exhausted url hs c n :
  retryCounts c !! url = Some n → maxRetries c ≤ n →
  handleRetry url hs c = set_failedUrls (<[url := n]> (failedUrls c)) c.
Proof.
  intros E Hge. unfold handleRetry.
  by rewrite (handleRetry_begin_exhausted url hs c n E Hge).
Qed.

(** C1, as the code has it: with [maxRetries = 3] and no count for [url]
    yet, three calls of the retry handler bring the count to 3 and requeue
    [url] three times, and leave the failed record as it was (no entry is
    written); the fourth call leaves the count at 3, does not requeue, and
    records [failedUrls[url] = 3]. *)
Theorem retry_scenario (url : string) (h1 h2 h3 h4 : option headers)
    (c : WebCrawler) :
  maxRetries c = 3 → retryCounts c !! url = None →
  let c3 := three_failures url h1 h2 h3 c in
  let c4 := handleRetry url h4 c3 in
  retryCounts c3 !! url = Some 3
  ∧ urlQueue c3 = urlQueue c ++ [url; url; url]
  ∧ failedUrls c3 = failedUrls c
  ∧ retryCounts c4 !! url = Some 3
  ∧ urlQueue c4 = urlQueue c3
  ∧ failedUrls c4 !! url = Some 3.
Proof.
  intros Hmax Hnone c3 c4.
  destruct (handleRetry_below url h1 c 0) as [d1 E1];
    [by rewrite Hnone | lia |].
  destruct (handleRetry_below url h2 (handleRetry url h1 c) 1) as [d2 E2];
    [rewrite E1; simpl; by rewrite lookup_insert_eq | rewrite E1; simpl; lia |].
  destruct (handleRetry_below url h3 (handleRetry url h2 (handleRetry url h1 c)) 2)
    as [d3 E3];
    [rewrite E2; simpl; by rewrite lookup_insert_eq | rewrite E2, E1; simpl; lia |].
  assert (Hc3 : retryCounts c3 !! url = Some 3).
  { unfold c3, three_failures. rewrite E3. simpl. by rewrite lookup_insert_eq. }
  assert (E4 : c4 = set_failedUrls (<[url := 3]> (failedUrls c3)) c3).
  { apply handleRetry_exhausted; [done|].
    unfold c3, three_failures. rewrite E3, E2, E1. simpl. lia. }
  split_and!; [done | | | | |].
  - unfold c3, three_failures. rewrite E3, E2, E1. simpl.
    by rewrite <- !(assoc_L (++)).
  - unfold c3, three_failures. rewrite E3, E2, E1. done.
  - rewrite E4. done.
  - rewrite E4. done.
  - rewrite E4. simpl. by rewrite lookup_insert_eq.
Qed.

End Retry.

Lemma retry_scenario_witness :
  let c3 := three_failures "http://example.com/retry" None None None
              example_crawler in
  let c4 := handleRetry "http://example.com/retry" None c3 in
  retryCounts c3 !! "http://example.com/retry" = Some 3
  ∧ urlQueue c3
    = urlQueue example_crawler
      ++ ["http://example.com/retry"; "http://example.com/retry";
          "http://example.com/retry"]
  ∧ failedUrls c3 = failedUrls example_crawler
  ∧ retryCounts c4 !! "http://example.com/retry" = Some 3
  ∧ urlQueue c4 = urlQueue c3
  ∧ failedUrls c4 !! "http://example.com/retry" = Some 3.
Proof.
  apply (retry_scenario "http://example.com/retry" None None None None
           example_crawler); reflexivity.
Defined.

(** C1 as the specification words it fails on the crawler of the
    test-suite: after the third call [failedUrls] has no entry for the
    URL. *)
Lemma retry_scenario_as_specified_fails :
  ¬ retry_scenario_as_specified "http://example.com/retry" example_crawler.
Proof. intros (_ & Hfailed & _). vm_compute in Hfailed. discriminate. Qed.

(** * Link extraction *)

Section Links.

Context `{URL_API}.

Lemma extractLinks_loop (page : html) (baseUrl : string) (acc : list string) :
  foldl
    (λ links attr,
       match URL_new attr (Some baseUrl) with
       | Some absoluteUrl => links ++ [href absoluteUrl]
       | None => links
       end)
    acc page
  = acc ++ omap (λ a, href <$> URL_new a (Some baseUrl)) page.
Proof.
  revert acc. induction page as [|a page IH]; intros acc; simpl.
  - by rewrite app_nil_r.
  - rewrite IH. destruct (URL_new a (Some baseUrl)) as [u|]; simpl; [|done].
    by rewrite <- (assoc_L (++)).
Qed.

(** The accumulator loop of [extractLinks] keeps, in document order, the
    [href] of every attribute that resolves against the base. *)
Lemma extractLinks_resolved (page : html) (baseUrl : string) :
  extractLinks page baseUrl
  = omap (λ a, href <$> URL_new a (Some baseUrl)) page.
Proof. unfold extractLinks. by rewrite extractLinks_loop. Qed.

(** C3, as the code has it: an anchor is dropped exactly when its href
    fails to resolve against the base; the empty href is resolved like any
    other, and where it resolves its entry is in the result. *)
Theorem empty_href_is_resolved (page : html) (baseUrl : string) (u : URL) :
  URL_new "" (Some baseUrl) = Some u →
  "" ∈ page →
  href u ∈ extractLinks page baseUrl
  ∧ ∀ a, a ∈ page →
      match URL_new a (Some baseUrl) with
      | Some v => href v ∈ extractLinks page baseUrl
      | None => True
      end.
Proof.
  intros Hu Hin. rewrite extractLinks_resolved. split.
  - apply list_elem_of_omap. exists "". by rewrite Hu.
  - intros a Ha. destruct (URL_new a (Some baseUrl)) as [v|] eqn:E; [|done].
    apply list_elem_of_omap. exists a. by rewrite E.
Qed.

(** The links are exactly the resolutions: nothing else is in the result. *)
Lemma extractLinks_elem (page : html) (baseUrl link : string) :
  link ∈ extractLinks page baseUrl ↔
  ∃ a u, a ∈ page ∧ URL_new a (Some baseUrl) = Some u ∧ href u = link.
Proof.
  rewrite extractLinks_resolved, list_elem_of_omap. split.
  - intros (a & Ha & E). destruct (URL_new a (Some baseUrl)) as [u|] eqn:Eu;
      simplify_eq/=. by exists a, u.
  - intros (a & u & Ha & Eu & <-). exists a. by rewrite Eu.
Qed.

End Links.

Example extractLinks_test_page :
  extractLinks test_page "http://example.com"
  = ["http://valid-link.com/"; "http://example.com/invalid-link";
     "http://example.com/"; "http://valid-link-2.com/"].
Proof. reflexivity. Qed.

Lemma empty_href_is_resolved_witness :
  "http://example.com/" ∈ extractLinks test_page "http://example.com"
  ∧ ∀ a, a ∈ test_page →
      match URL_new a (Some "http://example.com") with
      | Some v => href v ∈ extractLinks test_page "http://example.com"
      | None => True
      end.
Proof.
  apply (empty_href_is_resolved test_page "http://example.com"
           {| href := "http://example.com/"; hostname := "example.com" |}).
  - reflexivity.
  - unfold test_page. do 2 apply list_elem_of_further. apply list_elem_of_here.
Defined.

(** C3 as the specification words it fails on the page of the test-suite:
    with the empty href the page has four links, without it three. *)
Lemma empty_hrefs_dropped_fails :
  ¬ empty_hrefs_dropped test_page "http://example.com".
Proof. intros Heq. vm_compute in Heq. discriminate. Qed.

(** * The fetch task *)

Section Fetch.

Context `{URL_API}.

(** What the loop of lines 71-75 does in general: it only appends to the
    queue, and what it appends are links of the page that were not visited
    and belong to the domain. *)
Lemma enqueue_links_appends links c c' e :
  enqueue_links links c = (c', e) →
  ∃ q, c' = set_urlQueue (urlQueue c ++ q) c
       ∧ ∀ l, l ∈ q → l ∈ links ∧ (l ∉ visitedUrls c) ∧ in_domain c l = true.
Proof.
  revert c. induction links as [|link rest IH]; intros c; simpl.
  - intros [= <- <-]. exists []. split; [|by intros l ?%elem_of_nil].
    rewrite app_nil_r. by destruct c.
  - destruct (decide (link ∈ visitedUrls c)) as [Hv|Hv].
    { intros Hr. destruct (IH _ Hr) as (q & -> & Hq). exists q.
      split; [done|]. intros l Hl. destruct (Hq l Hl) as (?&?&?). split_and!; [by apply list_elem_of_further|done|done]. }
    destruct (URL_new link None) as [u|] eqn:Eu.
    2:{ intros [= <- <-]. exists []. split; [|by intros l ?%elem_of_nil].
        rewrite app_nil_r. by destruct c. }
    destruct (decide (hostname u = domainName c)) as [Hd|Hd].
    + intros Hr. destruct (IH _ Hr) as (q & -> & Hq). exists (link :: q).
      split.
      * unfold push, set_urlQueue; simpl. by rewrite <- (assoc_L (++)).
      * intros l [->|Hl]%elem_of_cons.
        -- split_and!; [by apply list_elem_of_here | done |].
           unfold in_domain. rewrite Eu. by apply bool_decide_eq_true.
        -- destruct (Hq l Hl) as (?&?&?). split_and!; [by apply list_elem_of_further|done|done].
    + intros Hr. destruct (IH _ Hr) as (q & -> & Hq). exists q.
      split; [done|]. intros l Hl. destruct (Hq l Hl) as (?&?&?). split_and!; [by apply list_elem_of_further|done|done].
Qed.

(** When every link can be parsed again the loop runs to its end, and it
    appends exactly the unvisited links of the domain, in page order. *)
Lemma enqueue_links_filter links c :
  Forall (λ l, is_Some (URL_new l None)) links →
  enqueue_links links c
  = (set_urlQueue
       (urlQueue c
        ++ filter (λ l, (l ∉ visitedUrls c) ∧ in_domain c l) links) c,
     None).
Proof.
  revert c. induction links as [|link rest IH]; intros c Hall; simpl.
  - rewrite app_nil_r. by destruct c.
  - apply Forall_cons in Hall as [[u Eu] Hall].
    rewrite filter_cons.
    destruct (decide (link ∈ visitedUrls c)) as [Hv|Hv].
    { rewrite decide_False by tauto. by apply IH. }
    assert (Hin : in_domain c link = bool_decide (hostname u = domainName c))
      by (unfold in_domain; by rewrite Eu).
    rewrite Eu.
    destruct (decide (hostname u = domainName c)) as [Hd|Hd].
    + rewrite bool_decide_eq_true_2 in Hin by done.
      rewrite decide_True by (by rewrite Hin).
      rewrite IH by done. unfold push, set_urlQueue; simpl.
      by rewrite <- (assoc_L (++)).
    + rewrite bool_decide_eq_false_2 in Hin by done.
      rewrite decide_False by (rewrite Hin; intros [_ []]). by apply IH.
Qed.

Lemma occurrences_app x l1 l2 :
  occurrences x (l1 ++ l2) = (occurrences x l1 + occurrences x l2)%nat.
Proof. unfold occurrences. by rewrite filter_app, length_app. Qed.

Lemma occurrences_filter (P : string → Prop) `{∀ y, Decision (P y)} x l :
  occurrences x (filter P l) = if decide (P x) then occurrences x l else 0%nat.
Proof.
  unfold occurrences. induction l as [|y l IH].
  - by destruct (decide (P x)).
  - rewrite (filter_cons (λ y, y = x) y l), (filter_cons P y l).
    destruct (decide (P y)) as [Hy|Hy].
    + rewrite filter_cons. destruct (decide (y = x)) as [->|Hne]; simpl.
      * rewrite IH. by destruct (decide (P x)).
      * rewrite IH. done.
    + rewrite IH. destruct (decide (y = x)) as [->|Hne]; simpl.
      * by destruct (decide (P x)).
      * done.
Qed.

(** C4, as the code has it: on a successful fetch the links appended to the
    queue are the elements of the raw link sequence that are not in the
    visited set and whose hostname is the session's domain, in page order
    and without deduplication; such a link occurring k times gives k new
    entries, and a link already visited gives none. *)
Theorem fetch_enqueues_unvisited_domain_links (url : string) (data : html)
    (hs : option headers) (c : WebCrawler) :
  Forall (λ l, is_Some (URL_new l None)) (extractLinks data url) →
  let links := extractLinks data url in
  let c' := (fetchAndProcess url (Resolved data hs) c).1 in
  urlQueue c'
  = urlQueue c ++ filter (λ l, (l ∉ visitedUrls c) ∧ in_domain c l) links
  ∧ (∀ l, l ∉ visitedUrls c → in_domain c l = true →
       occurrences l (urlQueue c')
       = (occurrences l (urlQueue c) + occurrences l links)%nat)
  ∧ (∀ l, l ∈ visitedUrls c →
       occurrences l (urlQueue c') = occurrences l (urlQueue c)).
Proof.
  intros Hall links c'.
  assert (Hq : urlQueue c'
    = urlQueue c ++ filter (λ l, (l ∉ visitedUrls c) ∧ in_domain c l) links).
  { unfold c', fetchAndProcess. fold links.
    destruct (adjustRateLimit_delay hs
      (set_crawledData (<[url := Set_from links]> (crawledData c)) c))
      as (d & -> & _).
    rewrite enqueue_links_filter by done. done. }
  split_and!; [done | |].
  - intros l Hv Hd. rewrite Hq, occurrences_app, occurrences_filter.
    rewrite decide_True; [done|]. split; [done|]. by rewrite Hd.
  - intros l Hv. rewrite Hq, occurrences_app, occurrences_filter.
    rewrite decide_False by tauto. lia.
Qed.

End Fetch.

Lemma fetch_enqueues_unvisited_domain_links_witness :
  let page := ["/a"; "/"; "/a"; "http://other.org/"] in
  let links := extractLinks page "http://example.com/" in
  let c' := (fetchAndProcess "http://example.com/" (Resolved page None)
               seed_dispatched).1 in
  urlQueue c'
  = urlQueue seed_dispatched
    ++ filter (λ l, (l ∉ visitedUrls seed_dispatched) ∧ in_domain seed_dispatched l)
         links
  ∧ (∀ l, l ∉ visitedUrls seed_dispatched → in_domain seed_dispatched l = true →
       occurrences l (urlQueue c')
       = (occurrences l (urlQueue seed_dispatched) + occurrences l links)%nat)
  ∧ (∀ l, l ∈ visitedUrls seed_dispatched →
       occurrences l (urlQueue c') = occurrences l (urlQueue seed_dispatched)).
Proof.
  apply (fetch_enqueues_unvisited_domain_links "http://example.com/"
           ["/a"; "/"; "/a"; "http://other.org/"] None seed_dispatched).
  repeat constructor; eexists; reflexivity.
Defined.

Example fetch_enqueues_duplicates :
  urlQueue
    (fetchAndProcess "http://example.com/"
       (Resolved ["/a"; "/"; "/a"; "http://other.org/"] None)
       seed_dispatched).1
  = ["http://example.com/a"; "http://example.com/a"].
Proof. vm_compute. reflexivity. Qed.

(** C4 as the specification words it fails where a page links to a visited
    address: the seed's page links to the seed, the link belongs to the
    domain, and the queue stays empty. *)
Lemma enqueues_every_domain_link_fails :
  ¬ enqueues_every_domain_link "http://example.com/" ["/"] None
      seed_dispatched.
Proof. intros Heq. vm_compute in Heq. discriminate. Qed.

(** * Construction *)

Section Construction.

Context `{URL_API}.

Lemma constructor_Constructed startUrl0 mc mr c :
  constructor startUrl0 mc mr = Constructed c →
  ∃ u, URL_new (startUrl c) None = Some u
       ∧ domainName c = hostname u
       ∧ urlQueue c = [startUrl c]
       ∧ visitedUrls c = ∅ ∧ crawledData c = ∅ ∧ failedUrls c = ∅
       ∧ retryCounts c = ∅ ∧ dynamicDelay c = ms 100.
Proof.
  unfold constructor. destruct startUrl0 as [[|a s]|]; [done| |done].
  destruct (URL_new _ None) as [u|] eqn:Eu; [|done].
  intros [= <-]. simpl. by exists u.
Qed.

(** C9: a missing or empty seed fails with the error "Start URL is
    required.", a seed that [URL] cannot parse fails with the different
    error "Invalid URL provided.", and whenever the constructor throws,
    none of the fields that hold crawling state has been assigned. *)
Theorem constructor_rejects_bad_seed (startUrl0 : option string)
    (mc mr : option Z) :
  (startUrl0 = None ∨ startUrl0 = Some "" →
     constructor startUrl0 mc mr = Threw (Error "Start URL is required.") [])
  ∧ (∀ s, startUrl0 = Some s → s ≠ "" → URL_new s None = None →
       constructor startUrl0 mc mr
       = Threw (Error "Invalid URL provided.") ["startUrl"])
  ∧ Error "Start URL is required." ≠ Error "Invalid URL provided."
  ∧ (∀ e assigned, constructor startUrl0 mc mr = Threw e assigned →
       ∀ f, f ∈ crawling_state → f ∉ assigned).
Proof.
  split_and!.
  - by intros [-> | ->].
  - intros s -> Hs Hu. unfold constructor. rewrite Hu. by destruct s.
  - done.
  - intros e assigned. unfold constructor.
    destruct startUrl0 as [[|a s]|].
    + intros [= <- <-] f _. apply not_elem_of_nil.
    + destruct (URL_new _ None); [done|].
      intros [= <- <-] f Hf ->%list_elem_of_singleton.
      unfold crawling_state in Hf.
      repeat (apply elem_of_cons in Hf as [Hf|Hf]; [discriminate|]).
      by apply elem_of_nil in Hf.
    + intros [= <- <-] f _. apply not_elem_of_nil.
Qed.

End Construction.

Lemma constructor_rejects_bad_seed_witness :
  constructor None None None = Threw (Error "Start URL is required.") []
  ∧ constructor (Some "") None None
    = Threw (Error "Start URL is required.") []
  ∧ constructor (Some "invalid-url") None None
    = Threw (Error "Invalid URL provided.") ["startUrl"].
Proof.
  split_and!.
  - apply (proj1 (constructor_rejects_bad_seed None None None)). by left.
  - apply (proj1 (constructor_rejects_bad_seed (Some "") None None)). by right.
  - apply (proj1 (proj2 (constructor_rejects_bad_seed (Some "invalid-url")
                           None None)) "invalid-url"); [reflexivity|done|].
    reflexivity.
Defined.

(** * Sessions *)

Section Session.

Context `{URL_API}.

Local Ltac fields := cbn [this crawling fetching settling retrying].

(** ** What each atomic piece does to the fields *)

Lemma crawl_iteration_cases c c' it :
  crawl_iteration c = (c', it) →
  match it with
  | Dispatched url =>
      (url ∉ visitedUrls c)
      ∧ urlQueue c = url :: urlQueue c'
      ∧ c' = set_activeRequests (activeRequests c + 1)
               (set_visitedUrls ({[url]} ∪ visitedUrls c)
                  (set_urlQueue (urlQueue c') c))
  | Skipped url =>
      url ∈ visitedUrls c
      ∧ urlQueue c = url :: urlQueue c'
      ∧ c' = set_urlQueue (urlQueue c') c
  | Delayed d => c' = c ∧ d = dynamicDelay c
  | Complete => c' = c ∧ urlQueue c = [] ∧ activeRequests c ≤ 0
  end.
Proof.
  unfold crawl_iteration.
  destruct ((0 <? Z.of_nat (length (urlQueue c))) || (0 <? activeRequests c))
    eqn:Ework.
  - destruct ((activeRequests c <? maxConcurrency c)
              && (0 <? Z.of_nat (length (urlQueue c)))).
    + destruct (urlQueue c) as [|url rest] eqn:Eq.
      * by intros [= <- <-].
      * simpl. destruct (decide (url ∈ visitedUrls c)) as [Hv|Hv];
          intros [= <- <-]; simpl; by rewrite ?Eq.
    + by intros [= <- <-].
  - intros [= <- <-]. apply orb_false_iff in Ework as [Hq Ha].
    apply Z.ltb_ge in Hq, Ha. split_and!; [done| |done].
    destruct (urlQueue c); [done|]. simpl in Hq. lia.
Qed.

Lemma handleRetry_begin_fields url hs c c' o :
  handleRetry_begin url hs c = (c', o) →
  visitedUrls c' = visitedUrls c ∧ domainName c' = domainName c
  ∧ urlQueue c' = urlQueue c ∧ crawledData c' = crawledData c
  ∧ (failedUrls c' = failedUrls c
     ∨ ∃ n, failedUrls c' = <[url := n]> (failedUrls c))
  ∧ (∀ r, o = Some r → retry_url r = url).
Proof.
  unfold handleRetry_begin.
  destruct (retryCounts c !! url); simpl;
    match goal with |- context [if ?b then _ else _] => destruct b end;
    intros [= <- <-]; simpl; split_and!; eauto; by intros r [= <-].
Qed.

Lemma fetchAndProcess_fields url r c c' o :
  fetchAndProcess url r c = (c', o) →
  visitedUrls c' = visitedUrls c ∧ domainName c' = domainName c
  ∧ (∃ q, urlQueue c' = urlQueue c ++ q
          ∧ ∀ l, l ∈ q → in_domain c l = true)
  ∧ (crawledData c' = crawledData c
     ∨ ∃ data hs, r = Resolved data hs
         ∧ crawledData c'
           = <[url := Set_from (extractLinks data url)]> (crawledData c))
  ∧ (failedUrls c' = failedUrls c
     ∨ ∃ n, failedUrls c' = <[url := n]> (failedUrls c))
  ∧ (∀ r', o = Some r' → retry_url r' = url).
Proof.
  destruct r as [data hs|hs]; simpl.
  - destruct (adjustRateLimit_delay hs
      (set_crawledData
         (<[url := Set_from (extractLinks data url)]> (crawledData c)) c))
      as (d & -> & _).
    destruct (enqueue_links _ _) as [c3 e] eqn:Eloop.
    apply enqueue_links_appends in Eloop as (q & -> & Hq). simpl in *.
    assert (Hdom : ∀ l, l ∈ q → in_domain c l = true)
      by (intros l Hl; by destruct (Hq l Hl) as (_ & _ & ?)).
    destruct e as [e|].
    + intros (Hv & Hd & Hu & Hc & Hf & Ho)%handleRetry_begin_fields.
      simpl in *. split_and!; eauto.
    + intros [= <- <-]. simpl. split_and!; eauto. done.
  - intros (Hv & Hd & Hu & Hc & Hf & Ho)%handleRetry_begin_fields.
    split_and!; eauto. exists []. rewrite app_nil_r. split; [done|].
    by intros l ?%elem_of_nil.
Qed.

(** ** Runs *)

Lemma run_app s t1 t2 s' :
  run s (t1 ++ t2) s' ↔ ∃ m, run s t1 m ∧ run m t2 s'.
Proof.
  revert s. induction t1 as [|e t1 IH]; intros s; simpl.
  - split.
    + intros Hr. exists s. split; [constructor | done].
    + intros (m & Hm & Hr). by inversion Hm; subst.
  - split.
    + intros Hr. inversion Hr as [|? ? s1 ? ? Hstep Hrest]; subst.
      apply IH in Hrest as (m & Hm & Hr'). exists m. split; [|done].
      by econstructor.
    + intros (m & Hm & Hr). inversion Hm as [|? ? s1 ? ? Hstep Hrest]; subst.
      econstructor; [done|]. apply IH. by exists m.
Qed.

(** An invariant of the steps that may mention the events so far holds
    along every run. *)
Lemma run_invariant (I : list event → session → Prop) :
  (∀ t s e s', I t s → step s e s' → I (t ++ [e]) s') →
  ∀ s t s', run s t s' → ∀ pre, I pre s → I (pre ++ t) s'.
Proof.
  intros Hstep s t s' Hrun.
  induction Hrun as [s|s e s1 t s2 Hs Hrun IH]; intros pre Hpre.
  - by rewrite app_nil_r.
  - rewrite (cons_middle e pre t), (assoc_L (++)). apply IH. by eapply Hstep.
Qed.

(** ** The visited gate *)

Lemma step_visited_mono s e s' :
  step s e s' → visitedUrls (this s) ⊆ visitedUrls (this s').
Proof.
  destruct 1 as [s c url _ Hit|s c url _ Hit|s c d _ Hit|s c _ Hit
                |s f1 f2 url r c o _ Hf|s n _|s r1 r2 r _]; fields.
  - apply crawl_iteration_cases in Hit as (_ & _ & ->). simpl.
    apply union_subseteq_r.
  - apply crawl_iteration_cases in Hit as (_ & _ & ->). done.
  - apply crawl_iteration_cases in Hit as (-> & _). done.
  - apply crawl_iteration_cases in Hit as (-> & _). done.
  - apply fetchAndProcess_fields in Hf as (-> & _). done.
  - done.
  - destruct (handleRetry_resume_fields r (this s)) as [d ->]. done.
Qed.

Lemma run_visited_mono s t s' :
  run s t s' → visitedUrls (this s) ⊆ visitedUrls (this s').
Proof.
  induction 1 as [|s e s1 t s2 Hs _ IH]; [done|].
  etrans; [by eapply step_visited_mono | done].
Qed.

(** A dispatch needs an address that is not visited. *)
Lemma step_dispatch_unvisited s url s' :
  step s (Dispatch url) s' → url ∉ visitedUrls (this s).
Proof.
  inversion 1 as [? c ? _ Hit| | | | | |]; subst.
  by apply crawl_iteration_cases in Hit as (? & _).
Qed.

Lemma run_visited_never_dispatched s t s' url :
  url ∈ visitedUrls (this s) → run s t s' → Dispatch url ∉ t.
Proof.
  intros Hv Hrun. induction Hrun as [|s e s1 t s2 Hs _ IH].
  - apply not_elem_of_nil.
  - intros [<-|Hin]%elem_of_cons.
    + by apply step_dispatch_unvisited in Hs.
    + apply IH; [|done]. by eapply step_visited_mono.
Qed.

Lemma in_flight_fetch s f1 f2 url o c b n u :
  fetching s = f1 ++ url :: f2 →
  (∀ r, o = Some r → retry_url r = url) →
  in_flight {| this := c; crawling := b; fetching := f1 ++ f2; settling := n;
               retrying := with_retry o (retrying s) |} u →
  in_flight s u.
Proof.
  intros Hfetch Ho [Hu|(r & Hr & <-)]; unfold in_flight; simpl in *.
  - left. rewrite Hfetch.
    apply elem_of_app in Hu as [?|?]; apply elem_of_app; [by left|].
    right. by right.
  - destruct o as [r0|]; simpl in Hr; [|right; by exists r].
    apply elem_of_cons in Hr as [->|Hr]; [|right; by exists r].
    left. rewrite Hfetch, (Ho r0 eq_refl). apply elem_of_app. right. by left.
Qed.

Lemma in_flight_requeue s r1 r2 r c b n u :
  retrying s = r1 ++ r :: r2 →
  in_flight {| this := c; crawling := b; fetching := fetching s;
               settling := n; retrying := r1 ++ r2 |} u →
  in_flight s u.
Proof.
  intros Hretry [Hu|(r' & Hr' & <-)]; unfold in_flight; simpl in *;
    [by left|].
  right. exists r'. split; [|done]. rewrite Hretry.
  apply elem_of_app in Hr' as [?|?]; apply elem_of_app; [by left|].
  right. by right.
Qed.

Lemma in_flight_dispatch s c b n url u :
  in_flight {| this := c; crawling := b; fetching := url :: fetching s;
               settling := n; retrying := retrying s |} u →
  u = url ∨ in_flight s u.
Proof.
  intros [[->|Hu]%elem_of_cons|Hu]; unfold in_flight; simpl in *; auto.
Qed.

Lemma gate_invariant_step t s e s' :
  gate_invariant t s → step s e s' → gate_invariant (t ++ [e]) s'.
Proof.
  intros (Hfl & Hdisp & Hcd & Hfu) Hstep.
  assert (Hpast : ∀ u, u ∈ visitedUrls (this s) → Dispatch u ∈ t ++ [e]).
  { intros u Hu. apply elem_of_app. left. by apply Hdisp. }
  destruct Hstep as [s c url _ Hit|s c url _ Hit|s c d _ Hit|s c _ Hit
                    |s f1 f2 url r c o Hfetch Hf|s n _|s r1 r2 r Hretry];
    unfold gate_invariant.
  - apply crawl_iteration_cases in Hit as (_ & _ & ->). fields. simpl.
    split_and!.
    + intros u [->|Hu]%in_flight_dispatch; apply elem_of_union; [left|right].
      * by apply elem_of_singleton.
      * by apply Hfl.
    + intros u [->%elem_of_singleton|Hu]%elem_of_union; [|by apply Hpast].
      apply elem_of_app. right. by apply list_elem_of_singleton.
    + etrans; [done|]. apply union_subseteq_r.
    + etrans; [done|]. apply union_subseteq_r.
  - apply crawl_iteration_cases in Hit as (_ & _ & ->). fields. simpl.
    split_and!; [|done..]. intros u Hu. by apply Hfl.
  - apply crawl_iteration_cases in Hit as (-> & _). fields.
    split_and!; [|done..]. intros u Hu. by apply Hfl.
  - apply crawl_iteration_cases in Hit as (-> & _). fields.
    split_and!; [|done..]. intros u Hu. by apply Hfl.
  - apply fetchAndProcess_fields in Hf as (Hv & _ & _ & Hc & Hfail & Ho).
    fields. rewrite Hv.
    assert (Hurl : url ∈ visitedUrls (this s)).
    { apply Hfl. left. rewrite Hfetch. apply elem_of_app. right. by left. }
    split_and!.
    + intros u Hu. apply Hfl. by eapply in_flight_fetch.
    + done.
    + destruct Hc as [->|(data & hs & _ & ->)]; [done|].
      rewrite dom_insert_L. apply union_subseteq. split; [|done].
      by apply singleton_subseteq_l.
    + destruct Hfail as [->|(n & ->)]; [done|].
      rewrite dom_insert_L. apply union_subseteq. split; [|done].
      by apply singleton_subseteq_l.
  - fields. simpl. split_and!; [|done..]. intros u Hu. by apply Hfl.
  - destruct (handleRetry_resume_fields r (this s)) as [d Hd]. fields.
    rewrite Hd. simpl. split_and!; [|done..].
    intros u Hu. apply Hfl. by eapply in_flight_requeue.
Qed.

Lemma gate_invariant_start startUrl0 mc mr c :
  constructor startUrl0 mc mr = Constructed c → gate_invariant [] (start c).
Proof.
  intros (u & _ & _ & _ & Hv & Hc & Hf & _)%constructor_Constructed.
  unfold gate_invariant, in_flight; simpl. rewrite Hv, Hc, Hf, !dom_empty_L.
  split_and!; [| |done..].
  - intros u' [Hu|(r & Hr & _)]; [by apply elem_of_nil in Hu|].
    by apply elem_of_nil in Hr.
  - by intros u' ?%not_elem_of_empty.
Qed.

Lemma gate_invariant_run startUrl0 mc mr c t s :
  constructor startUrl0 mc mr = Constructed c →
  run (start c) t s → gate_invariant t s.
Proof.
  intros Hc Hrun.
  apply (run_invariant gate_invariant gate_invariant_step _ _ _ Hrun []).
  by eapply gate_invariant_start.
Qed.


(** ** The domain filter *)

Lemma in_domain_hostname_is c l :
  in_domain c l = true → hostname_is (domainName c) l.
Proof.
  unfold in_domain, hostname_is. destruct (URL_new l None) as [u|]; [|done].
  intros Hd%bool_decide_eq_true. simpl. by rewrite Hd.
Qed.

Lemma domain_invariant_step d t s e s' :
  domain_invariant d t s → step s e s' → domain_invariant d (t ++ [e]) s'.
Proof.
  intros (Hd & Hq & Hfl & Hdisp) Hstep.
  assert (Hpast : ∀ u, Dispatch u ∈ t ++ [e] →
            Dispatch u ∈ t ∨ e = Dispatch u).
  { intros u [?| ->%list_elem_of_singleton]%elem_of_app; auto. }
  assert (Hold : (∀ u, e ≠ Dispatch u) →
            ∀ u, Dispatch u ∈ t ++ [e] → hostname_is d u).
  { intros He u [?|?]%Hpast; [by apply Hdisp|]. by destruct (He u). }
  destruct Hstep as [s c url _ Hit|s c url _ Hit|s c dl _ Hit|s c _ Hit
                    |s f1 f2 url r c o Hfetch Hf|s n _|s r1 r2 r Hretry];
    unfold domain_invariant.
  - apply crawl_iteration_cases in Hit as (_ & Hqueue & ->). fields. simpl.
    assert (Hurl : hostname_is d url).
    { apply Hq. rewrite Hqueue. by left. }
    split_and!; [done| | |].
    + intros u Hu. apply Hq. rewrite Hqueue. by right.
    + intros u [->|Hu]%in_flight_dispatch; [done|]. by apply Hfl.
    + intros u [?|Heq]%Hpast; [by apply Hdisp|]. by injection Heq as ->.
  - apply crawl_iteration_cases in Hit as (_ & Hqueue & ->). fields. simpl.
    split_and!; [done| |done|by apply Hold].
    intros u Hu. apply Hq. rewrite Hqueue. by right.
  - apply crawl_iteration_cases in Hit as (-> & _). fields.
    split_and!; [done..|by apply Hold].
  - apply crawl_iteration_cases in Hit as (-> & _). fields.
    split_and!; [done..|by apply Hold].
  - apply fetchAndProcess_fields in Hf
      as (_ & Hdom & (q & Hqueue & Hnew) & _ & _ & Ho).
    fields. rewrite Hdom, Hqueue.
    split_and!; [done| | |by apply Hold].
    + intros u [Hu|Hu]%elem_of_app; [by apply Hq|].
      rewrite <- Hd. by apply in_domain_hostname_is, Hnew.
    + intros u Hu. apply Hfl. by eapply in_flight_fetch.
  - fields. simpl. split_and!; [done..|by apply Hold].
  - destruct (handleRetry_resume_fields r (this s)) as [dl Hdl]. fields.
    rewrite Hdl. simpl. split_and!; [done| | |by apply Hold].
    + intros u [Hu| ->%list_elem_of_singleton]%elem_of_app; [by apply Hq|].
      apply Hfl. right. exists r. split; [|done]. rewrite Hretry.
      apply elem_of_app. right. by left.
    + intros u Hu. apply Hfl. by eapply in_flight_requeue.
Qed.

Lemma domain_invariant_run startUrl0 mc mr c t s :
  constructor startUrl0 mc mr = Constructed c →
  run (start c) t s → domain_invariant (domainName c) t s.
Proof.
  intros Hc Hrun.
  apply (run_invariant (domain_invariant (domainName c))
           (domain_invariant_step _) _ _ _ Hrun []).
  apply constructor_Constructed in Hc
    as (u & Hu & Hd & Hq & _). unfold domain_invariant, in_flight; simpl.
  split_and!; [done| | |].
  - rewrite Hq. intros u' ->%list_elem_of_singleton.
    unfold hostname_is. by rewrite Hu, Hd.
  - intros u' [Hu'|(r & Hr & _)]; [by apply elem_of_nil in Hu'|].
    by apply elem_of_nil in Hr.
  - by intros u' ?%elem_of_nil.
Qed.

(** ** The crawl record *)

Lemma Set_add_loop (l acc : list string) :
  foldl (λ s x, Set_add x s) acc l
  = acc ++ filter (λ y, y ∉ acc) (first_occurrences l).
Proof.
  revert acc. induction l as [|x r IH]; intros acc; simpl.
  - by rewrite app_nil_r.
  - rewrite IH, filter_cons, list_filter_filter. unfold Set_add.
    destruct (decide (x ∈ acc)) as [Hx|Hx].
    + destruct (decide (x ∉ acc)) as [Hn|_]; [by destruct Hn|].
      f_equal. apply list_filter_iff.
      intros y. split; [|by intros [? _]]. intros Hy. split; [done|].
      by intros ->.
    + destruct (decide (x ∉ acc)) as [_|Hn]; [|by destruct Hn].
      rewrite <- (assoc_L (++)). simpl.
      do 2 f_equal. apply list_filter_iff. intros y.
      rewrite elem_of_app, list_elem_of_singleton. tauto.
Qed.

(** [[...new Set(links)]] lists the distinct links in the order of their
    first occurrence. *)
Lemma Set_from_first_occurrences (l : list string) :
  Set_from l = first_occurrences l.
Proof.
  unfold Set_from. rewrite Set_add_loop. simpl.
  induction (first_occurrences l) as [|y r IH]; [done|].
  rewrite filter_cons_True by apply not_elem_of_nil. by rewrite IH.
Qed.

Lemma first_occurrences_elem (l : list string) x :
  x ∈ first_occurrences l ↔ x ∈ l.
Proof.
  induction l as [|y r IH]; simpl; [done|].
  rewrite !elem_of_cons, list_elem_of_filter, IH.
  destruct (decide (x = y)); tauto.
Qed.

Lemma first_occurrences_NoDup (l : list string) : NoDup (first_occurrences l).
Proof.
  induction l as [|y r IH]; simpl; constructor.
  - rewrite list_elem_of_filter. tauto.
  - by apply NoDup_filter.
Qed.

Lemma record_invariant_step t s e s' :
  record_invariant t s → step s e s' → record_invariant (t ++ [e]) s'.
Proof.
  intros Hrec Hstep.
  assert (Hpast : ∀ u ls, crawledData (this s) !! u = Some ls →
            ∃ data hs, Fetch u (Resolved data hs) ∈ t ++ [e]
                       ∧ ls = Set_from (extractLinks data u)).
  { intros u ls (data & hs & Hin & ->)%Hrec. exists data, hs.
    split; [|done]. apply elem_of_app. by left. }
  destruct Hstep as [s c url _ Hit|s c url _ Hit|s c dl _ Hit|s c _ Hit
                    |s f1 f2 url r c o Hfetch Hf|s n _|s r1 r2 r Hretry];
    unfold record_invariant; fields.
  - by apply crawl_iteration_cases in Hit as (_ & _ & ->).
  - by apply crawl_iteration_cases in Hit as (_ & _ & ->).
  - by apply crawl_iteration_cases in Hit as (-> & _).
  - by apply crawl_iteration_cases in Hit as (-> & _).
  - apply fetchAndProcess_fields in Hf as (_ & _ & _ & Hc & _).
    destruct Hc as [->|(data & hs & -> & ->)]; [done|].
    intros u ls. rewrite lookup_insert.
    destruct (decide (url = u)) as [->|Hne]; [|by apply Hpast].
    intros [= <-]. exists data, hs. split; [|done].
    apply elem_of_app. right. by apply list_elem_of_singleton.
  - done.
  - destruct (handleRetry_resume_fields r (this s)) as [dl ->]. done.
Qed.

Lemma record_invariant_run startUrl0 mc mr c t s :
  constructor startUrl0 mc mr = Constructed c →
  run (start c) t s → record_invariant t s.
Proof.
  intros Hc Hrun.
  apply (run_invariant record_invariant record_invariant_step _ _ _ Hrun []).
  apply constructor_Constructed in Hc as (u & _ & _ & _ & _ & Hcd & _).
  intros u' ls. simpl. by rewrite Hcd, lookup_empty.
Qed.

End Session.

(** ** The example sessions *)

Local Ltac crawl_step lem :=
  eapply run_cons; [eapply lem; [reflexivity | vm_compute; reflexivity] |].
Local Ltac fetch_step :=
  eapply run_cons;
  [eapply (step_fetch _ [] []); [reflexivity | vm_compute; reflexivity] |].

Example retry_session_run :
  run (start example_crawler)
    (retry_events_before ++ Requeue "http://example.com" :: retry_events_after)
    retry_session_end.
Proof.
  crawl_step @step_dispatch. fetch_step.
  eapply run_cons; [by eapply step_finally |].
  eapply run_cons.
  { eapply (step_requeue _ []
              [] {| retry_url := "http://example.com"; retry_headers := None;
                    retry_delay := Math_pow2 100 |}). reflexivity. }
  crawl_step @step_skip. crawl_step @step_finish.
  apply run_nil.
Qed.

Example fetch_session_run :
  run (start example_crawler) fetch_events fetch_session_end.
Proof.
  crawl_step @step_dispatch. fetch_step.
  eapply run_cons; [by eapply step_finally |].
  apply run_nil.
Qed.

Example no_retry_session_run :
  run (start no_retry_crawler) no_retry_events no_retry_session_end.
Proof. crawl_step @step_dispatch. fetch_step. apply run_nil. Qed.

(** * Properties of sessions *)

Section Properties.

Context `{URL_API}.

(** C5: once the retry handler has requeued a URL, the scheduler loop never
    dispatches a fetch for it again.  The URL was dispatched before the
    requeue, it is in the visited set from then on, no later event
    dispatches it, and an iteration of the loop in the state reached cannot
    dispatch it: shifting it from the queue finds it visited. *)
Theorem requeued_url_is_never_refetched (startUrl0 : option string)
    (mc mr : option Z) (c : WebCrawler) (t1 t2 : list event) (url : string)
    (s : session) :
  constructor startUrl0 mc mr = Constructed c →
  run (start c) (t1 ++ Requeue url :: t2) s →
  Dispatch url ∈ t1
  ∧ (Dispatch url ∉ t2)
  ∧ url ∈ visitedUrls (this s)
  ∧ ∀ c', crawl_iteration (this s) ≠ (c', Dispatched url).
Proof.
  intros Hc (m & Hbefore & Hafter)%run_app.
  inversion Hafter as [|? ? m1 ? ? Hstep Hrest]; subst.
  destruct (gate_invariant_run _ _ _ _ _ _ Hc Hbefore) as (Hfl & Hdisp & _).
  assert (Hm : url ∈ visitedUrls (this m)).
  { inversion Hstep as [| | | | | |? r1 r2 r Hretry]; subst.
    apply Hfl. right. exists r. split; [|done]. rewrite Hretry.
    apply elem_of_app. right. by left. }
  assert (Hm1 : url ∈ visitedUrls (this m1))
    by (by eapply step_visited_mono).
  assert (Hs : url ∈ visitedUrls (this s))
    by (by eapply run_visited_mono).
  split_and!;
    [by apply Hdisp | exact (run_visited_never_dispatched _ _ _ _ Hm1 Hrest)
    | done |].
  intros c' Hit. by apply crawl_iteration_cases in Hit as (? & _).
Qed.

(** C7: in every state of a session, the sequence recorded for a key [u] of
    the crawl record has no duplicates and lists the distinct links of the
    page fetched at [u] in the order of their first occurrence in the
    extracted link sequence. *)
Theorem crawl_record_is_unique_in_first_seen_order
    (startUrl0 : option string) (mc mr : option Z) (c : WebCrawler)
    (t : list event) (s : session) (u : string) (ls : list string) :
  constructor startUrl0 mc mr = Constructed c →
  run (start c) t s →
  crawledData (this s) !! u = Some ls →
  NoDup ls
  ∧ ∃ data hs,
      Fetch u (Resolved data hs) ∈ t
      ∧ ls = first_occurrences (extractLinks data u)
      ∧ ∀ x, x ∈ ls ↔ x ∈ extractLinks data u.
Proof.
  intros Hc Hrun Hu.
  destruct (record_invariant_run _ _ _ _ _ _ Hc Hrun u ls Hu)
    as (data & hs & Hin & ->).
  rewrite Set_from_first_occurrences. split.
  - apply first_occurrences_NoDup.
  - exists data, hs. split_and!; [done..|].
    intros x. apply first_occurrences_elem.
Qed.

(** C8: every URL in the queue in any state of a session, and every URL the
    loop has dispatched, has the hostname of the seed URL. *)
Theorem frontier_stays_in_domain (startUrl0 : option string)
    (mc mr : option Z) (c : WebCrawler) (t : list event) (s : session)
    (u : string) :
  constructor startUrl0 mc mr = Constructed c →
  run (start c) t s →
  u ∈ urlQueue (this s) ∨ Dispatch u ∈ t →
  ∃ seed v, URL_new (startUrl c) None = Some seed
            ∧ URL_new u None = Some v
            ∧ hostname v = hostname seed.
Proof.
  intros Hc Hrun Hu.
  destruct (domain_invariant_run _ _ _ _ _ _ Hc Hrun) as (_ & Hq & _ & Hd).
  apply constructor_Constructed in Hc as (seed & Hseed & Hdom & _).
  assert (Hhost : hostname_is (domainName c) u)
    by (destruct Hu; [by apply Hq | by apply Hd]).
  unfold hostname_is in Hhost.
  destruct (URL_new u None) as [v|]; [|done].
  injection Hhost as Hv. exists seed, v. by rewrite Hv, Hdom.
Qed.

(** C10: in every state of a session, every key of the crawl record and
    every key of the failed record is in the visited set, and was
    dispatched by the loop. *)
Theorem records_only_for_visited (startUrl0 : option string)
    (mc mr : option Z) (c : WebCrawler) (t : list event) (s : session)
    (u : string) :
  constructor startUrl0 mc mr = Constructed c →
  run (start c) t s →
  u ∈ dom (crawledData (this s)) ∨ u ∈ dom (failedUrls (this s)) →
  u ∈ visitedUrls (this s) ∧ Dispatch u ∈ t.
Proof.
  intros Hc Hrun Hu.
  destruct (gate_invariant_run _ _ _ _ _ _ Hc Hrun) as (_ & Hdisp & Hcd & Hfu).
  assert (Hv : u ∈ visitedUrls (this s))
    by (destruct Hu; [by apply Hcd | by apply Hfu]).
  split; [done | by apply Hdisp].
Qed.

End Properties.

Lemma requeued_url_is_never_refetched_witness :
  Dispatch "http://example.com" ∈ retry_events_before
  ∧ (Dispatch "http://example.com" ∉ retry_events_after)
  ∧ "http://example.com" ∈ visitedUrls (this retry_session_end)
  ∧ ∀ c', crawl_iteration (this retry_session_end)
          ≠ (c', Dispatched "http://example.com").
Proof.
  apply (requeued_url_is_never_refetched (Some "http://example.com") None
           None example_crawler).
  - reflexivity.
  - exact retry_session_run.
Defined.

Lemma crawl_record_is_unique_in_first_seen_order_witness :
  let ls := ["http://example.com/a"; "http://example.com/b";
             "http://other.org/x"] in
  NoDup ls
  ∧ ∃ data hs,
      Fetch "http://example.com" (Resolved data hs) ∈ fetch_events
      ∧ ls = first_occurrences (extractLinks data "http://example.com")
      ∧ ∀ x, x ∈ ls ↔ x ∈ extractLinks data "http://example.com".
Proof.
  apply (crawl_record_is_unique_in_first_seen_order
           (Some "http://example.com") None None example_crawler
           fetch_events fetch_session_end).
  - reflexivity.
  - exact fetch_session_run.
  - reflexivity.
Defined.

Lemma frontier_stays_in_domain_witness :
  ∃ seed v, URL_new "http://example.com" None = Some seed
            ∧ URL_new "http://example.com/b" None = Some v
            ∧ hostname v = hostname seed.
Proof.
  apply (frontier_stays_in_domain (Some "http://example.com") None None
           example_crawler fetch_events fetch_session_end).
  - reflexivity.
  - exact fetch_session_run.
  - left. simpl. apply list_elem_of_further, list_elem_of_here.
Defined.

Lemma records_only_for_visited_witness :
  "http://example.com" ∈ visitedUrls (this no_retry_session_end)
  ∧ Dispatch "http://example.com" ∈ no_retry_events.
Proof.
  apply (records_only_for_visited (Some "http://example.com") None (Some 0)
           no_retry_crawler no_retry_events no_retry_session_end).
  - reflexivity.
  - exact no_retry_session_run.
  - right. apply elem_of_dom. eexists. reflexivity.
Defined.

(** * Further properties *)

Section Frames.

Context `{URL_API}.

Local Ltac fields := cbn [this crawling fetching settling retrying].

(** What [handleRetry_begin] leaves alone. *)
Lemma handleRetry_begin_frame url hs c c' o :
  handleRetry_begin url hs c = (c', o) →
  startUrl c' = startUrl c ∧ maxConcurrency c' = maxConcurrency c
  ∧ activeRequests c' = activeRequests c ∧ maxRetries c' = maxRetries c
  ∧ dynamicDelay c' = dynamicDelay c
  ∧ (∀ u, u ≠ url → retryCounts c' !! u = retryCounts c !! u)
  ∧ (∀ u, u ≠ url → failedUrls c' !! u = failedUrls c !! u)
  ∧ dom (retryCounts c') ⊆ {[url]} ∪ dom (retryCounts c).
Proof.
  unfold handleRetry_begin.
  destruct (retryCounts c !! url) as [k|] eqn:E; simpl;
    match goal with |- context [if ?b then _ else _] => destruct b end;
    intros [= <- <-]; simpl; split_and!; try done;
    try (intros u Hu; by rewrite ?lookup_insert_ne by done);
    rewrite ?dom_insert_L;
    first [ done | apply union_subseteq_r
          | apply union_least; [apply union_subseteq_l | done] ].
Qed.

(** What [fetchAndProcess] leaves alone. *)
Lemma fetchAndProcess_frame url r c c' o :
  fetchAndProcess url r c = (c', o) →
  startUrl c' = startUrl c ∧ maxConcurrency c' = maxConcurrency c
  ∧ activeRequests c' = activeRequests c ∧ maxRetries c' = maxRetries c
  ∧ (num_le (ms 100) (dynamicDelay c) → num_le (ms 100) (dynamicDelay c'))
  ∧ (∀ u, u ≠ url → retryCounts c' !! u = retryCounts c !! u)
  ∧ (∀ u, u ≠ url → failedUrls c' !! u = failedUrls c !! u)
  ∧ (∀ u, u ≠ url → crawledData c' !! u = crawledData c !! u)
  ∧ dom (retryCounts c') ⊆ {[url]} ∪ dom (retryCounts c).
Proof.
  destruct r as [data hs|hs]; simpl.
  - destruct (adjustRateLimit_delay hs
      (set_crawledData
         (<[url := Set_from (extractLinks data url)]> (crawledData c)) c))
      as (d & -> & Hd).
    destruct (enqueue_links _ _) as [c3 e] eqn:Eloop.
    apply enqueue_links_appends in Eloop as (q & -> & _).
    assert (Hcd : ∀ u, u ≠ url →
      <[url := Set_from (extractLinks data url)]> (crawledData c) !! u
      = crawledData c !! u) by (intros u Hu; by rewrite lookup_insert_ne).
    destruct e as [e|].
    + intros Hb.
      pose proof Hb as (?&?&?&?&Hdl&?&?&Hdom)%handleRetry_begin_frame.
      apply handleRetry_begin_fields in Hb as (_&_&_&Hc&_).
      simpl in *. rewrite Hdl, Hc. split_and!; done.
    + intros [= <- <-]. simpl. split_and!; try done. apply union_subseteq_r.
  - intros Hb.
    pose proof Hb as (?&?&?&?&Hdl&?&?&Hdom)%handleRetry_begin_frame.
    apply handleRetry_begin_fields in Hb as (_&_&_&Hc&_).
    rewrite Hdl, Hc. split_and!; done.
Qed.

End Frames.

(** ** The rate controller, continued *)

Lemma Qle_bool_false (p q : Q) : Qle_bool p q = false → (q < p)%Q.
Proof.
  intros E. destruct (Qlt_le_dec q p) as [Hlt|Hle]; [done|].
  apply Qle_bool_iff in Hle. congruence.
Qed.

Lemma Qhalf (q : Q) : (q / 2 == q * (1 # 2))%Q.
Proof. reflexivity. Qed.

Lemma Math_max_l_le x y : num_le x (Math_max x y).
Proof.
  destruct x as [p|], y as [q|]; simpl; try done.
  destruct (Qle_bool p q) eqn:E; simpl.
  - by apply Qle_bool_iff.
  - apply Qle_refl.
Qed.

Lemma Math_max_r_le x y : num_le y (Math_max x y).
Proof.
  destruct x as [p|], y as [q|]; simpl; try done.
  destruct (Qle_bool p q) eqn:E; simpl.
  - apply Qle_refl.
  - by apply Qlt_le_weak, Qle_bool_false.
Qed.

Lemma num_le_trans x y z : num_le x y → num_le y z → num_le x z.
Proof.
  destruct x as [p|], y as [q|], z as [r|]; simpl; try done.
  apply Qle_trans.
Qed.

Lemma times2_above_1000 x : num_le x (Math_max (times2 x) (ms 1000)).
Proof.
  destruct x as [q|]; [|done]. unfold times2, round_overflow.
  destruct (Qle_bool overflow_threshold (q * 2)); [done|].
  unfold ms, Math_max.
  destruct (Qle_bool (q * 2) (inject_Z 1000)) eqn:E; cbn [num_le].
  - apply Qle_bool_iff in E. assert (inject_Z 1000 == 1000)%Q by done. lra.
  - apply Qle_bool_false in E. assert (inject_Z 1000 == 1000)%Q by done. lra.
Qed.

Lemma half_below x :
  num_le (ms 100) x → num_le (Math_max (ms 100) (half x)) x.
Proof.
  destruct x as [q|]; [|done]. intros Hq. change (inject_Z 100 <= q)%Q in Hq.
  unfold ms, half, Math_max.
  destruct (Qle_bool (inject_Z 100) (q / 2)) eqn:E; cbn [num_le].
  - apply Qle_bool_iff in E. rewrite Qhalf in E |- *.
    assert (inject_Z 100 == 100)%Q by done. lra.
  - done.
Qed.

(** The delay after a call whose headers carry the quota header. *)
Lemma adjustRateLimit_quota (h : headers) (v : string) (c : WebCrawler) :
  h !! "x-ratelimit-remaining" = Some v →
  dynamicDelay (adjustRateLimit (Some h) c).1
  = if decide (parseInt v = Some 0)
    then Math_max (times2 (dynamicDelay c)) (ms 1000)
    else Math_max (ms 100) (half (dynamicDelay c)).
Proof.
  intros Hv. unfold adjustRateLimit. rewrite Hv.
  destruct (h !! "retry-after"), (parseInt v) as [[| |]|];
    by case_decide.
Qed.

(** X12: A remaining quota of zero never lowers the delay and leaves it at
    least 1000 ms; any other value of the header, also one that is not a
    number, leaves the delay at least 100 ms and never raises a delay that
    was at least 100 ms. *)
Theorem quota_adjustment_direction (h : headers) (v : string)
    (c : WebCrawler) :
  h !! "x-ratelimit-remaining" = Some v →
  let d := dynamicDelay c in
  let d' := dynamicDelay (adjustRateLimit (Some h) c).1 in
  (parseInt v = Some 0 → num_le d d' ∧ num_le (ms 1000) d')
  ∧ (parseInt v ≠ Some 0 →
       num_le (ms 100) d' ∧ (num_le (ms 100) d → num_le d' d)).
Proof.
  intros Hv d d'. unfold d'. rewrite (adjustRateLimit_quota h v c Hv). split.
  - intros Hz. rewrite decide_True by done.
    split; [apply times2_above_1000 | apply Math_max_r_le].
  - intros Hne. rewrite decide_False by done.
    split; [apply Math_max_l_le | apply half_below].
Qed.

Lemma quota_adjustment_direction_witness :
  let h : headers := {["x-ratelimit-remaining" := "unlimited"]} in
  let d := dynamicDelay example_crawler in
  let d' := dynamicDelay (adjustRateLimit (Some h) example_crawler).1 in
  (parseInt "unlimited" = Some 0 → num_le d d' ∧ num_le (ms 1000) d')
  ∧ (parseInt "unlimited" ≠ Some 0 →
       num_le (ms 100) d' ∧ (num_le (ms 100) d → num_le d' d)).
Proof.
  apply (quota_adjustment_direction {["x-ratelimit-remaining" := "unlimited"]}
           "unlimited" example_crawler).
  reflexivity.
Defined.

(** X13: Backing off and recovering: from a delay of at least 500 ms, a response
    with no quota left followed by a response with quota left brings the
    delay back to what it was. *)
Theorem backoff_then_recover (h0 h1 : headers) (v0 v1 : string)
    (c : WebCrawler) (q : Q) :
  h0 !! "x-ratelimit-remaining" = Some v0 → parseInt v0 = Some 0 →
  h1 !! "x-ratelimit-remaining" = Some v1 → parseInt v1 ≠ Some 0 →
  dynamicDelay c = Fin q → (500 <= q)%Q → (q * 2 < overflow_threshold)%Q →
  num_eq
    (dynamicDelay
       (adjustRateLimit (Some h1) (adjustRateLimit (Some h0) c).1).1)
    (Fin q).
Proof.
  intros Hh0 Hv0 Hh1 Hv1 Hq Hlow Hhigh.
  rewrite (adjustRateLimit_quota h1 v1 _ Hh1), decide_False by done.
  rewrite (adjustRateLimit_quota h0 v0 _ Hh0), decide_True by done.
  rewrite Hq. unfold times2, round_overflow.
  destruct (Qle_bool overflow_threshold (q * 2)) eqn:E.
  { apply Qle_bool_iff in E. destruct (Qlt_not_le _ _ Hhigh E). }
  assert (inject_Z 1000 == 1000)%Q by done.
  assert (inject_Z 100 == 100)%Q by done.
  assert (Hm : ∃ m, Math_max (Fin (q * 2)) (ms 1000) = Fin m ∧ (m == q * 2)%Q).
  { unfold ms, Math_max.
    destruct (Qle_bool (q * 2) (inject_Z 1000)) eqn:E1.
    - apply Qle_bool_iff in E1. exists (inject_Z 1000). split; [done|]. lra.
    - by exists (q * 2)%Q. }
  destruct Hm as (m & -> & Hm). unfold ms, half, Math_max.
  destruct (Qle_bool (inject_Z 100) (m / 2)) eqn:E2; cbn [num_eq].
  - rewrite Qhalf, Hm. field.
  - apply Qle_bool_false in E2. rewrite Qhalf in E2. lra.
Qed.

Lemma backoff_then_recover_witness :
  num_eq
    (dynamicDelay
       (adjustRateLimit (Some {["x-ratelimit-remaining" := "12"]})
          (adjustRateLimit (Some {["x-ratelimit-remaining" := "0"]})
             (set_dynamicDelay (ms 1000) example_crawler)).1).1)
    (ms 1000).
Proof.
  apply (backoff_then_recover {["x-ratelimit-remaining" := "0"]}
           {["x-ratelimit-remaining" := "12"]} "0" "12"
           (set_dynamicDelay (ms 1000) example_crawler) (inject_Z 1000));
    try reflexivity; try done.
Defined.

(** ** The retry handler, continued *)

Local Ltac crawler_fields :=
  cbn [startUrl domainName visitedUrls urlQueue maxConcurrency activeRequests
       maxRetries retryCounts crawledData failedUrls dynamicDelay
       set_visitedUrls set_urlQueue set_activeRequests set_retryCounts
       set_crawledData set_failedUrls set_dynamicDelay push].

Section MoreRetry.

(** A call for a URL whose count (0 when it has none) is not below
    [maxRetries]: the count is stored, written to [failedUrls], and the
    call ends without suspending. *)
Lemma handleRetry_begin_at_limit url hs c n :
  default 0 (retryCounts c !! url) = n → maxRetries c ≤ n →
  handleRetry_begin url hs c
  = (set_failedUrls (<[url := n]> (failedUrls c))
       (set_retryCounts (<[url := n]> (retryCounts c)) c), None).
Proof.
  intros Hn Hge. unfold handleRetry_begin.
  destruct (retryCounts c !! url) as [k|] eqn:E; simpl in *; subst.
  - rewrite E. simpl. rewrite (proj2 (Z.ltb_ge _ _) Hge).
    rewrite (insert_id _ _ _ E). by destruct c.
  - rewrite lookup_insert_eq. simpl. by rewrite (proj2 (Z.ltb_ge _ _) Hge).
Qed.

Lemma handleRetry_at_limit url hs c n :
  default 0 (retryCounts c !! url) = n → maxRetries c ≤ n →
  handleRetry url hs c
  = set_failedUrls (<[url := n]> (failedUrls c))
      (set_retryCounts (<[url := n]> (retryCounts c)) c).
Proof.
  intros Hn Hge. unfold handleRetry.
  by rewrite (handleRetry_begin_at_limit url hs c n Hn Hge).
Qed.

Lemma handleRetry_counts url hs c :
  counts_within c →
  counts_within (handleRetry url hs c)
  ∧ maxRetries (handleRetry url hs c) = maxRetries c
  ∧ ∀ u n, retryCounts c !! u = Some n →
      ∃ n', retryCounts (handleRetry url hs c) !! u = Some n' ∧ n ≤ n'.
Proof.
  intros Hc.
  assert (H0 : 0 ≤ default 0 (retryCounts c !! url)
               ≤ Z.max 0 (maxRetries c)).
  { destruct (retryCounts c !! url) as [k|] eqn:E; cbn [default id from_option];
      [by apply (Hc url k) | lia]. }
  assert (Hold : ∀ n, retryCounts c !! url = Some n →
            n = default 0 (retryCounts c !! url)) by (by intros n ->).
  remember (default 0 (retryCounts c !! url)) as m eqn:Hm.
  destruct (Z.lt_ge_cases m (maxRetries c)) as [Hlt|Hge].
  - destruct (handleRetry_below url hs c m (eq_sym Hm) Hlt) as [d ->].
    unfold counts_within. crawler_fields. split_and!; [|done|].
    + intros u n. rewrite lookup_insert. case_decide as Hu.
      * intros [= <-]. lia.
      * apply Hc.
    + intros u n Hn. rewrite lookup_insert. case_decide as Hu.
      * subst u. rewrite (Hold n Hn). eexists. split; [done|lia].
      * by exists n.
  - rewrite (handleRetry_at_limit url hs c m (eq_sym Hm) Hge).
    unfold counts_within. crawler_fields. split_and!; [|done|].
    + intros u n. rewrite lookup_insert. case_decide as Hu.
      * intros [= <-]. lia.
      * apply Hc.
    + intros u n Hn. rewrite lookup_insert. case_decide as Hu.
      * subst u. rewrite (Hold n Hn). by exists m.
      * by exists n.
Qed.

Lemma counts_within_fresh c : retryCounts c = ∅ → counts_within c.
Proof. intros Hc u n. by rewrite Hc, lookup_empty. Qed.

Lemma counts_within_three_failures url h1 h2 h3 c :
  counts_within c → counts_within (three_failures url h1 h2 h3 c).
Proof.
  intros Hc. unfold three_failures.
  by do 3 apply handleRetry_counts.
Qed.

(** X9: Whatever calls of the retry handler are made, for whatever URLs and
    headers, no retry count ever exceeds [maxRetries] or goes down. *)
Theorem retry_counts_capped_and_monotone
    (calls : list (string * option headers)) (c : WebCrawler) :
  counts_within c →
  counts_within (handleRetry_calls calls c)
  ∧ ∀ u n, retryCounts c !! u = Some n →
      ∃ n', retryCounts (handleRetry_calls calls c) !! u = Some n' ∧ n ≤ n'.
Proof.
  revert c. induction calls as [|[url hs] calls IH]; intros c Hc; simpl.
  - split; [done|]. intros u n Hn. by exists n.
  - destruct (handleRetry_counts url hs c Hc) as (Hc' & _ & Hmono).
    destruct (IH _ Hc') as (Hfinal & Hmono'). split; [done|].
    intros u n Hn. destruct (Hmono u n Hn) as (n1 & Hn1 & Hle1).
    destruct (Hmono' u n1 Hn1) as (n2 & Hn2 & Hle2).
    exists n2. split; [done|lia].
Qed.

(** X10: A call of the retry handler does one of two things, never both: it
    counts one more retry and requeues the URL, leaving the failed record
    alone; or, the count having reached [maxRetries], it records the URL as
    failed with exactly [maxRetries] and leaves queue and count alone. *)
Theorem handleRetry_requeues_or_fails (url : string) (hs : option headers)
    (c : WebCrawler) :
  counts_within c → 0 ≤ maxRetries c →
  let c' := handleRetry url hs c in
  let n := default 0 (retryCounts c !! url) in
  (n < maxRetries c
   ∧ urlQueue c' = urlQueue c ++ [url]
   ∧ failedUrls c' = failedUrls c
   ∧ retryCounts c' !! url = Some (n + 1))
  ∨ (n = maxRetries c
     ∧ urlQueue c' = urlQueue c
     ∧ failedUrls c' = <[url := maxRetries c]> (failedUrls c)
     ∧ retryCounts c' !! url = Some (maxRetries c)).
Proof.
  intros Hc Hmax c' n.
  assert (Hn : n ≤ maxRetries c).
  { unfold n. destruct (retryCounts c !! url) as [k|] eqn:E; simpl; [|done].
    pose proof (Hc url k E). lia. }
  destruct (Z.lt_ge_cases n (maxRetries c)) as [Hlt|Hge].
  - left. unfold c'. destruct (handleRetry_below url hs c n eq_refl Hlt) as [d ->].
    simpl. by rewrite lookup_insert_eq.
  - right. assert (n = maxRetries c) as Heq by lia.
    unfold c'. rewrite (handleRetry_at_limit url hs c n eq_refl Hge).
    simpl. rewrite lookup_insert_eq, Heq. done.
Qed.

(** X11: The backoff delay handed to [delay] before the (n+1)-th retry is
    [2^((n+1)*100)]: at least 2^100 ms for the first retry already, and
    [Infinity] from the eleventh on. *)
Theorem backoff_delay_bounds (url : string) (hs : option headers)
    (c : WebCrawler) (n : Z) :
  default 0 (retryCounts c !! url) = n → 0 ≤ n → n < maxRetries c →
  ∃ r, (handleRetry_begin url hs c).2 = Some r
       ∧ retry_url r = url ∧ retry_headers r = hs
       ∧ num_le (Fin (inject_Z (2 ^ 100))) (retry_delay r)
       ∧ (n < 10 → retry_delay r = Fin (inject_Z (2 ^ ((n + 1) * 100))))
       ∧ (10 ≤ n → retry_delay r = Infinity).
Proof.
  intros Hn H0 Hlt. rewrite (handleRetry_begin_below url hs c n Hn Hlt).
  eexists. split; [done|]. simpl. split_and!; [done..| | |].
  - unfold Math_pow2. destruct ((n + 1) * 100 <? 1024); [|done].
    cbn [num_le]. rewrite <- Zle_Qle. apply Z.pow_le_mono_r; lia.
  - intros Hn10. unfold Math_pow2.
    by rewrite (proj2 (Z.ltb_lt _ _)) by lia.
  - intros Hn10. unfold Math_pow2.
    by rewrite (proj2 (Z.ltb_ge _ _)) by lia.
Qed.

End MoreRetry.

Lemma retry_counts_capped_and_monotone_witness :
  let calls := [("http://example.com/a", None); ("http://example.com/b", None);
                ("http://example.com/a", None)] in
  counts_within (handleRetry_calls calls example_crawler)
  ∧ ∀ u n, retryCounts example_crawler !! u = Some n →
      ∃ n', retryCounts (handleRetry_calls calls example_crawler) !! u = Some n'
            ∧ n ≤ n'.
Proof.
  apply (retry_counts_capped_and_monotone
           [("http://example.com/a", None); ("http://example.com/b", None);
            ("http://example.com/a", None)] example_crawler).
  by apply counts_within_fresh.
Defined.

Lemma handleRetry_requeues_or_fails_witness :
  let url := "http://example.com/retry" in
  let c := three_failures url None None None example_crawler in
  let c' := handleRetry url None c in
  let n := default 0 (retryCounts c !! url) in
  (n < maxRetries c
   ∧ urlQueue c' = urlQueue c ++ [url]
   ∧ failedUrls c' = failedUrls c
   ∧ retryCounts c' !! url = Some (n + 1))
  ∨ (n = maxRetries c
     ∧ urlQueue c' = urlQueue c
     ∧ failedUrls c' = <[url := maxRetries c]> (failedUrls c)
     ∧ retryCounts c' !! url = Some (maxRetries c)).
Proof.
  apply (handleRetry_requeues_or_fails "http://example.com/retry" None
           (three_failures "http://example.com/retry" None None None
              example_crawler)).
  - by apply counts_within_three_failures, counts_within_fresh.
  - vm_compute. discriminate.
Defined.

Lemma backoff_delay_bounds_witness :
  ∃ r, (handleRetry_begin "http://example.com/retry" None example_crawler).2
       = Some r
       ∧ retry_url r = "http://example.com/retry" ∧ retry_headers r = None
       ∧ num_le (Fin (inject_Z (2 ^ 100))) (retry_delay r)
       ∧ (0 < 10 → retry_delay r = Fin (inject_Z (2 ^ ((0 + 1) * 100))))
       ∧ (10 ≤ 0 → retry_delay r = Infinity).
Proof.
  apply (backoff_delay_bounds "http://example.com/retry" None example_crawler 0);
    [reflexivity | lia | vm_compute; reflexivity].
Defined.

(** ** Link extraction and the fetch task, continued *)

Section MoreFetch.

Context `{URL_API}.

(** X14: Extraction works anchor by anchor: the links of two pages put together
    are the links of the first followed by the links of the second, and a
    page never gives more links than it has anchors. *)
Theorem extractLinks_app (p1 p2 : html) (baseUrl : string) :
  extractLinks (p1 ++ p2) baseUrl
  = extractLinks p1 baseUrl ++ extractLinks p2 baseUrl
  ∧ (length (extractLinks p1 baseUrl) ≤ length p1)%nat.
Proof.
  rewrite !extractLinks_resolved. split; [apply omap_app|].
  generalize (λ a, href <$> URL_new a (Some baseUrl)). intros f.
  induction p1 as [|a p1 IH]; [done|].
  change (omap f (a :: p1))
    with (match f a with Some y => y :: omap f p1 | None => omap f p1 end).
  destruct (f a); cbn [length]; lia.
Qed.

(** X15: An href that [URL] rejects is skipped on its own: the anchors before
    and after it give their links as if it were not there. *)
Theorem extractLinks_skips_unresolved (p1 p2 : html) (a baseUrl : string) :
  URL_new a (Some baseUrl) = None →
  extractLinks (p1 ++ a :: p2) baseUrl
  = extractLinks p1 baseUrl ++ extractLinks p2 baseUrl.
Proof.
  intros Ha. rewrite !extractLinks_resolved, omap_app. simpl.
  by rewrite Ha.
Qed.

(** X16: A fetch that succeeds, on a page all of whose links parse again, starts
    no retry and leaves the retry counts, the failed record, the visited
    set and the request counter as they were; it writes the crawl record of
    its own URL and of no other. *)
Theorem successful_fetch_touches_no_retry_state (url : string) (data : html)
    (hs : option headers) (c : WebCrawler) :
  Forall (λ l, is_Some (URL_new l None)) (extractLinks data url) →
  let r := fetchAndProcess url (Resolved data hs) c in
  r.2 = None
  ∧ retryCounts r.1 = retryCounts c
  ∧ failedUrls r.1 = failedUrls c
  ∧ visitedUrls r.1 = visitedUrls c
  ∧ activeRequests r.1 = activeRequests c
  ∧ crawledData r.1
    = <[url := first_occurrences (extractLinks data url)]> (crawledData c).
Proof.
  intros Hall r. unfold r, fetchAndProcess.
  destruct (adjustRateLimit_delay hs
    (set_crawledData
       (<[url := Set_from (extractLinks data url)]> (crawledData c)) c))
    as (d & -> & _).
  rewrite enqueue_links_filter by done. simpl.
  by rewrite Set_from_first_occurrences.
Qed.

(** X17: A link to another host is discovered but not scheduled: it is in the
    crawl record written for the page, and the queue holds it no more often
    than before. *)
Theorem cross_domain_link_is_recorded_not_enqueued (url : string)
    (data : html) (hs : option headers) (c : WebCrawler) (link : string) :
  Forall (λ l, is_Some (URL_new l None)) (extractLinks data url) →
  link ∈ extractLinks data url →
  in_domain c link = false →
  let c' := (fetchAndProcess url (Resolved data hs) c).1 in
  (∃ ls, crawledData c' !! url = Some ls ∧ link ∈ ls)
  ∧ occurrences link (urlQueue c') = occurrences link (urlQueue c).
Proof.
  intros Hall Hlink Hdom c'. unfold c', fetchAndProcess.
  destruct (adjustRateLimit_delay hs
    (set_crawledData
       (<[url := Set_from (extractLinks data url)]> (crawledData c)) c))
    as (d & -> & _).
  rewrite enqueue_links_filter by done. cbn [fst]. crawler_fields. split.
  - exists (Set_from (extractLinks data url)). rewrite lookup_insert_eq.
    split; [done|].
    by rewrite Set_from_first_occurrences, first_occurrences_elem.
  - rewrite occurrences_app, occurrences_filter.
    rewrite decide_False; [lia|]. intros [_ Hd].
    change (Is_true (in_domain c link)) in Hd. by rewrite Hdom in Hd.
Qed.

End MoreFetch.

Lemma extractLinks_skips_unresolved_witness :
  extractLinks (["/a"] ++ "//" :: ["/c"]) "http://example.com"
  = extractLinks ["/a"] "http://example.com"
    ++ extractLinks ["/c"] "http://example.com".
Proof.
  apply (extractLinks_skips_unresolved ["/a"] ["/c"] "//"
           "http://example.com").
  reflexivity.
Defined.

Lemma successful_fetch_touches_no_retry_state_witness :
  let c := three_failures "http://example.com/" None None None
             seed_dispatched in
  let r := fetchAndProcess "http://example.com/"
             (Resolved ["/a"; "/a"; "http://other.org/"] None) c in
  r.2 = None
  ∧ retryCounts r.1 = retryCounts c
  ∧ failedUrls r.1 = failedUrls c
  ∧ visitedUrls r.1 = visitedUrls c
  ∧ activeRequests r.1 = activeRequests c
  ∧ crawledData r.1
    = <["http://example.com/" :=
          first_occurrences
            (extractLinks ["/a"; "/a"; "http://other.org/"]
               "http://example.com/")]> (crawledData c).
Proof.
  apply (successful_fetch_touches_no_retry_state "http://example.com/"
           ["/a"; "/a"; "http://other.org/"] None
           (three_failures "http://example.com/" None None None
              seed_dispatched)).
  repeat constructor; eexists; reflexivity.
Defined.

Lemma cross_domain_link_is_recorded_not_enqueued_witness :
  let c' := (fetchAndProcess "http://example.com/"
               (Resolved ["/a"; "http://other.org/"] None)
               seed_dispatched).1 in
  (∃ ls, crawledData c' !! "http://example.com/" = Some ls
         ∧ "http://other.org/" ∈ ls)
  ∧ occurrences "http://other.org/" (urlQueue c')
    = occurrences "http://other.org/" (urlQueue seed_dispatched).
Proof.
  apply (cross_domain_link_is_recorded_not_enqueued "http://example.com/"
           ["/a"; "http://other.org/"] None seed_dispatched
           "http://other.org/").
  - repeat constructor; eexists; reflexivity.
  - apply list_elem_of_further, list_elem_of_here.
  - reflexivity.
Defined.

(** ** Sessions, continued *)

Section MoreSessions.

Context `{URL_API}.

Local Ltac fields := cbn [this crawling fetching settling retrying].

Lemma constructor_config startUrl0 mc mr c :
  constructor startUrl0 mc mr = Constructed c →
  maxConcurrency c = default 5 mc ∧ maxRetries c = default 3 mr
  ∧ activeRequests c = 0 ∧ startUrl0 = Some (startUrl c).
Proof.
  unfold constructor. destruct startUrl0 as [[|a s]|]; [done| |done].
  destruct (URL_new _ None) as [u|]; [|done].
  by intros [= <-].
Qed.

(** The loop dispatches only below the ceiling. *)
Lemma crawl_iteration_dispatch_guard c c' url :
  crawl_iteration c = (c', Dispatched url) →
  activeRequests c < maxConcurrency c.
Proof.
  unfold crawl_iteration.
  destruct ((0 <? Z.of_nat (length (urlQueue c))) || (0 <? activeRequests c));
    [|done].
  destruct (activeRequests c <? maxConcurrency c) eqn:E; [|done].
  intros _. by apply Z.ltb_lt.
Qed.

Lemma step_config s e s' :
  step s e s' →
  maxConcurrency (this s') = maxConcurrency (this s)
  ∧ maxRetries (this s') = maxRetries (this s).
Proof.
  destruct 1 as [s c url _ Hit|s c url _ Hit|s c d _ Hit|s c _ Hit
                |s f1 f2 url r c o _ Hf|s n _|s r1 r2 r _]; fields.
  - by apply crawl_iteration_cases in Hit as (_ & _ & ->).
  - by apply crawl_iteration_cases in Hit as (_ & _ & ->).
  - by apply crawl_iteration_cases in Hit as (-> & _).
  - by apply crawl_iteration_cases in Hit as (-> & _).
  - by apply fetchAndProcess_frame in Hf as (_ & -> & _ & -> & _).
  - done.
  - by destruct (handleRetry_resume_fields r (this s)) as [d ->].
Qed.


(** *** The concurrency ceiling *)

Lemma flight_invariant_step s e s' :
  flight_invariant s → step s e s' → flight_invariant s'.
Proof.
  intros [Hcount Hceil] Hstep. unfold flight_invariant.
  destruct Hstep as [s c url _ Hit|s c url _ Hit|s c d _ Hit|s c _ Hit
                    |s f1 f2 url r c o Hfetch Hf|s n Hn|s r1 r2 r _]; fields.
  - pose proof (crawl_iteration_dispatch_guard _ _ _ Hit) as Hguard.
    apply crawl_iteration_cases in Hit as (_ & _ & ->). crawler_fields.
    cbn [length]. lia.
  - apply crawl_iteration_cases in Hit as (_ & _ & ->). by crawler_fields.
  - by apply crawl_iteration_cases in Hit as (-> & _).
  - by apply crawl_iteration_cases in Hit as (-> & _).
  - apply fetchAndProcess_frame in Hf as (_ & -> & -> & _).
    rewrite Hfetch, length_app in Hcount. cbn [length] in Hcount.
    rewrite length_app. split; [lia|done].
  - crawler_fields. rewrite Hn in Hcount. lia.
  - destruct (handleRetry_resume_fields r (this s)) as [d ->].
    by crawler_fields.
Qed.

Lemma flight_invariant_run startUrl0 mc mr c t s :
  constructor startUrl0 mc mr = Constructed c →
  run (start c) t s → flight_invariant s.
Proof.
  intros Hc Hrun.
  apply (run_invariant (λ _, flight_invariant)
           (λ _ _ _ _, flight_invariant_step _ _ _) _ _ _ Hrun []).
  apply constructor_config in Hc as (_ & _ & Ha & _).
  unfold flight_invariant. simpl. rewrite Ha. lia.
Qed.


(** *** The visited gate, continued *)

Lemma step_visited s e s' :
  step s e s' →
  visitedUrls (this s')
  = match e with
    | Dispatch u => {[u]} ∪ visitedUrls (this s)
    | _ => visitedUrls (this s)
    end.
Proof.
  destruct 1 as [s c url _ Hit|s c url _ Hit|s c d _ Hit|s c _ Hit
                |s f1 f2 url r c o _ Hf|s n _|s r1 r2 r _]; fields.
  - by apply crawl_iteration_cases in Hit as (_ & _ & ->).
  - by apply crawl_iteration_cases in Hit as (_ & _ & ->).
  - by apply crawl_iteration_cases in Hit as (-> & _).
  - by apply crawl_iteration_cases in Hit as (-> & _).
  - by apply fetchAndProcess_fields in Hf as (-> & _).
  - done.
  - by destruct (handleRetry_resume_fields r (this s)) as [d ->].
Qed.

Lemma dispatched_snoc t e :
  dispatched (t ++ [e])
  = match e with
    | Dispatch u => dispatched t ++ [u]
    | _ => dispatched t
    end.
Proof.
  unfold dispatched. rewrite omap_app.
  destruct e; simpl; by rewrite ?app_nil_r.
Qed.

Lemma elem_of_dispatched t u : u ∈ dispatched t ↔ Dispatch u ∈ t.
Proof.
  unfold dispatched. rewrite list_elem_of_omap. split.
  - intros (e & He & Hu). destruct e; simplify_eq. done.
  - intros Hu. by exists (Dispatch u).
Qed.

Lemma dispatch_invariant_step t s e s' :
  dispatch_invariant t s → step s e s' → dispatch_invariant (t ++ [e]) s'.
Proof.
  intros [Hnodup Hvis] Hstep. unfold dispatch_invariant.
  rewrite dispatched_snoc, (step_visited _ _ _ Hstep).
  destruct e as [u| | | | | |]; try done.
  apply step_dispatch_unvisited in Hstep. split.
  - apply NoDup_app. split_and!; [done| |apply NoDup_singleton].
    intros x Hx ->%list_elem_of_singleton. by apply Hstep, Hvis.
  - intros x. rewrite elem_of_union, elem_of_singleton, elem_of_app,
      list_elem_of_singleton, Hvis. tauto.
Qed.

(** X2: No address is dispatched twice in a session, however often it is in
    the queue, and the visited set holds exactly the addresses that were
    dispatched. *)
Theorem each_url_dispatched_at_most_once (startUrl0 : option string)
    (mc mr : option Z) (c : WebCrawler) (t : list event) (s : session) :
  constructor startUrl0 mc mr = Constructed c →
  run (start c) t s →
  NoDup (dispatched t)
  ∧ ∀ u, u ∈ visitedUrls (this s) ↔ Dispatch u ∈ t.
Proof.
  intros Hc Hrun.
  assert (Hinv : dispatch_invariant t s).
  { apply (run_invariant dispatch_invariant dispatch_invariant_step
             _ _ _ Hrun []).
    apply constructor_Constructed in Hc as (_ & _ & _ & _ & Hv & _).
    split; [constructor|]. intros u. simpl. rewrite Hv.
    split; [by intros ?%not_elem_of_empty | by intros ?%elem_of_nil]. }
  destruct Hinv as [Hnodup Hvis]. split; [done|].
  intros u. by rewrite Hvis, elem_of_dispatched.
Qed.

(** *** The poll interval *)



(** *** Write-once records *)

Lemma NoDup_remove_middle (f1 f2 : list string) (url : string) :
  NoDup (f1 ++ url :: f2) →
  NoDup (f1 ++ f2) ∧ ∀ u, u ∈ f1 ++ f2 → u ≠ url ∧ u ∈ f1 ++ url :: f2.
Proof.
  intros (Hf1 & Hdisj & [Hurl Hf2]%NoDup_cons)%NoDup_app. split.
  - apply NoDup_app. split_and!; [done| |done].
    intros x Hx Hx2. apply (Hdisj x Hx). by right.
  - intros u [Hu|Hu]%elem_of_app.
    + split; [|apply elem_of_app; by left].
      intros ->. apply (Hdisj url Hu). by left.
    + split; [by intros ->|]. apply elem_of_app. right. by right.
Qed.

Lemma book_invariant_step s e s' :
  book_invariant s → step s e s' → book_invariant s'.
Proof.
  intros (Hnodup & Hfetch & Hcd & Hfu & Hrc) Hstep. unfold book_invariant.
  destruct Hstep as [s c url _ Hit|s c url _ Hit|s c d _ Hit|s c _ Hit
                    |s f1 f2 url r c o Hfetching Hf|s n _|s r1 r2 r _]; fields.
  - apply crawl_iteration_cases in Hit as (Hnew & _ & ->). crawler_fields.
    assert (Hout : ∀ (A : Type) (m : gmap string A),
              dom m ⊆ visitedUrls (this s) → m !! url = None).
    { intros A m Hm. apply not_elem_of_dom. intros Hin. by apply Hnew, Hm. }
    split_and!.
    + apply NoDup_cons. split; [|done]. intros Hin.
      by destruct (Hfetch url Hin) as (? & _).
    + intros u [->|Hu]%elem_of_cons.
      * split_and!; [apply elem_of_union; left; by apply elem_of_singleton
                    | by apply Hout..].
      * destruct (Hfetch u Hu) as (? & ? & ? & ?).
        split_and!; [apply elem_of_union; by right | done..].
    + etrans; [done|]. apply union_subseteq_r.
    + etrans; [done|]. apply union_subseteq_r.
    + etrans; [done|]. apply union_subseteq_r.
  - apply crawl_iteration_cases in Hit as (_ & _ & ->). by crawler_fields.
  - by apply crawl_iteration_cases in Hit as (-> & _).
  - by apply crawl_iteration_cases in Hit as (-> & _).
  - rewrite Hfetching in Hnodup.
    destruct (NoDup_remove_middle _ _ _ Hnodup) as [Hnodup' Hrest].
    assert (Hurl : url ∈ visitedUrls (this s)).
    { apply Hfetch. rewrite Hfetching. apply elem_of_app. right. by left. }
    pose proof (fetchAndProcess_frame _ _ _ _ _ Hf)
      as (_ & _ & _ & _ & _ & Hrc' & Hfu' & Hcd' & Hdomrc).
    apply fetchAndProcess_fields in Hf as (Hv & _ & _ & Hc & Hfail & _).
    rewrite Hv. split_and!; [done| | | |].
    + intros u Hu. destruct (Hrest u Hu) as [Hne Hin].
      rewrite <- Hfetching in Hin. destruct (Hfetch u Hin) as (? & ? & ? & ?).
      rewrite Hcd', Hfu', Hrc' by done. done.
    + destruct Hc as [->|(data & hs & _ & ->)]; [done|].
      rewrite dom_insert_L. apply union_least; [|done].
      by apply singleton_subseteq_l.
    + destruct Hfail as [->|(n & ->)]; [done|].
      rewrite dom_insert_L. apply union_least; [|done].
      by apply singleton_subseteq_l.
    + etrans; [done|]. apply union_least; [|done].
      by apply singleton_subseteq_l.
  - by crawler_fields.
  - destruct (handleRetry_resume_fields r (this s)) as [d ->].
    by crawler_fields.
Qed.

Lemma book_invariant_start startUrl0 mc mr c :
  constructor startUrl0 mc mr = Constructed c → book_invariant (start c).
Proof.
  intros (u & _ & _ & _ & _ & Hcd & Hfu & Hrc & _)%constructor_Constructed.
  unfold book_invariant. simpl. rewrite Hcd, Hfu, Hrc, !dom_empty_L.
  split_and!; [constructor| |done..]. by intros u' ?%elem_of_nil.
Qed.

Lemma book_invariant_run s t s' :
  book_invariant s → run s t s' → book_invariant s'.
Proof.
  intros Hs Hrun.
  by apply (run_invariant (λ _, book_invariant)
              (λ _ _ _ _, book_invariant_step _ _ _) _ _ _ Hrun []).
Qed.

(** A step never changes or removes an entry of the two records. *)
Lemma records_kept_step s e s' :
  book_invariant s → step s e s' →
  (∀ u ls, crawledData (this s) !! u = Some ls →
     crawledData (this s') !! u = Some ls)
  ∧ (∀ u n, failedUrls (this s) !! u = Some n →
       failedUrls (this s') !! u = Some n).
Proof.
  intros (_ & Hfetch & _) Hstep.
  destruct Hstep as [s c url _ Hit|s c url _ Hit|s c d _ Hit|s c _ Hit
                    |s f1 f2 url r c o Hfetching Hf|s n _|s r1 r2 r _]; fields.
  - by apply crawl_iteration_cases in Hit as (_ & _ & ->).
  - by apply crawl_iteration_cases in Hit as (_ & _ & ->).
  - by apply crawl_iteration_cases in Hit as (-> & _).
  - by apply crawl_iteration_cases in Hit as (-> & _).
  - destruct (Hfetch url) as (_ & Hcd & Hfu & _).
    { rewrite Hfetching. apply elem_of_app. right. by left. }
    apply fetchAndProcess_frame in Hf as (_ & _ & _ & _ & _ & _ & Hfu' & Hcd' & _).
    split.
    + intros u ls Hu. rewrite Hcd'; [done|]. intros ->. congruence.
    + intros u n Hu. rewrite Hfu'; [done|]. intros ->. congruence.
  - done.
  - by destruct (handleRetry_resume_fields r (this s)) as [d ->].
Qed.

(** X4: The crawl record and the failed record are write-once: an entry that
    is there at some point of a session is there, unchanged, at every later
    point. *)
Theorem records_are_write_once (startUrl0 : option string)
    (mc mr : option Z) (c : WebCrawler) (t1 t2 : list event)
    (m s : session) :
  constructor startUrl0 mc mr = Constructed c →
  run (start c) t1 m → run m t2 s →
  (∀ u ls, crawledData (this m) !! u = Some ls →
     crawledData (this s) !! u = Some ls)
  ∧ (∀ u n, failedUrls (this m) !! u = Some n →
       failedUrls (this s) !! u = Some n).
Proof.
  intros Hc Hbefore Hafter.
  assert (Hm : book_invariant m)
    by (eapply book_invariant_run; [by eapply book_invariant_start | done]).
  clear Hbefore. induction Hafter as [|m e m1 t s Hstep _ IH]; [done|].
  destruct (records_kept_step _ _ _ Hm Hstep) as [Hcd Hfu].
  destruct IH as [IHcd IHfu]; [by eapply book_invariant_step|].
  split; eauto.
Qed.

(** *** Retries in a session *)

Lemma fetchAndProcess_retry url r c c' o :
  fetchAndProcess url r c = (c', o) →
  (retryCounts c' = retryCounts c ∧ failedUrls c' = failedUrls c ∧ o = None)
  ∨ ∃ c0 hs, retryCounts c0 = retryCounts c ∧ failedUrls c0 = failedUrls c
             ∧ maxRetries c0 = maxRetries c
             ∧ handleRetry_begin url hs c0 = (c', o).
Proof.
  destruct r as [data hs|hs]; simpl.
  - destruct (adjustRateLimit_delay hs
      (set_crawledData
         (<[url := Set_from (extractLinks data url)]> (crawledData c)) c))
      as (d & -> & _).
    destruct (enqueue_links _ _) as [c3 e] eqn:Eloop.
    apply enqueue_links_appends in Eloop as (q & -> & _).
    destruct e as [e|].
    + intros Hb. right. eexists _, None. by split_and!; [..|exact Hb].
    + intros [= <- <-]. by left.
  - intros Hb. right. by exists c, hs.
Qed.

Lemma single_retry_invariant_step s e s' :
  1 ≤ maxRetries (this s) → book_invariant s →
  single_retry_invariant s → step s e s' → single_retry_invariant s'.
Proof.
  intros Hmax (_ & Hfetch & _) [Hfu Hrc] Hstep. unfold single_retry_invariant.
  destruct Hstep as [s c url _ Hit|s c url _ Hit|s c d _ Hit|s c _ Hit
                    |s f1 f2 url r c o Hfetching Hf|s n _|s r1 r2 r _]; fields.
  - by apply crawl_iteration_cases in Hit as (_ & _ & ->).
  - by apply crawl_iteration_cases in Hit as (_ & _ & ->).
  - by apply crawl_iteration_cases in Hit as (-> & _).
  - by apply crawl_iteration_cases in Hit as (-> & _).
  - destruct (Hfetch url) as (_ & _ & _ & Hnone).
    { rewrite Hfetching. apply elem_of_app. right. by left. }
    apply fetchAndProcess_retry in Hf
      as [(-> & -> & _)|(c0 & hs & Hrc0 & Hfu0 & Hmax0 & Hb)]; [done|].
    rewrite (handleRetry_begin_below url hs c0 0) in Hb;
      [|by rewrite Hrc0, Hnone|lia].
    injection Hb as <- <-. crawler_fields. rewrite Hrc0, Hfu0.
    split; [done|]. intros u n. rewrite lookup_insert. case_decide.
    + by intros [= <-].
    + apply Hrc.
  - done.
  - by destruct (handleRetry_resume_fields r (this s)) as [d ->].
Qed.

(** X5: With at least one retry allowed, a session never records an address
    as failed and never counts more than one retry for an address: each
    address is fetched once, so the retry handler runs at most once for
    it. *)
Theorem session_never_exhausts_retries (startUrl0 : option string)
    (mc mr : option Z) (c : WebCrawler) (t : list event) (s : session) :
  constructor startUrl0 mc mr = Constructed c →
  1 ≤ maxRetries c →
  run (start c) t s →
  failedUrls (this s) = ∅
  ∧ ∀ u n, retryCounts (this s) !! u = Some n → n = 1.
Proof.
  intros Hc Hmax Hrun.
  assert (Hstart : book_invariant (start c) ∧ single_retry_invariant (start c)).
  { split; [by eapply book_invariant_start|].
    apply constructor_Constructed in Hc as (_ & _ & _ & _ & _ & _ & Hfu & Hrc & _).
    split; simpl; [done|]. intros u n. by rewrite Hrc, lookup_empty. }
  assert (Hmax' : 1 ≤ maxRetries (this (start c))) by done.
  clear Hc. revert Hstart Hmax'.
  induction Hrun as [|s e s1 t s2 Hstep _ IH]; intros [Hb Hs] Hm; [done|].
  apply IH.
  - split; [by eapply book_invariant_step|].
    by eapply single_retry_invariant_step.
  - by rewrite (proj2 (step_config _ _ _ Hstep)).
Qed.

(** *** Completion *)

Lemma after_completion_run (s : session) (t : list event) (s' : session) :
  crawling s = false → fetching s = [] → settling s = 0%nat →
  run s t s' →
  Forall (λ e, ∃ u, e = Requeue u) t
  ∧ crawling s' = false ∧ fetching s' = [] ∧ settling s' = 0%nat
  ∧ urlQueue (this s') = urlQueue (this s) ++ requeued t
  ∧ crawledData (this s') = crawledData (this s)
  ∧ failedUrls (this s') = failedUrls (this s)
  ∧ visitedUrls (this s') = visitedUrls (this s).
Proof.
  intros Hcr Hfe Hse Hrun.
  induction Hrun as [s|s e s1 t s2 Hstep _ IH].
  - split_and!; try done. by rewrite app_nil_r.
  - destruct Hstep as [s c url Hon _|s c url Hon _|s c d Hon _|s c Hon _
                      |s f1 f2 url r c o Hfetching _|s n Hn|s r1 r2 r _];
      try congruence.
    + rewrite Hfe in Hfetching. by destruct f1.
    + destruct IH as (Hall & ? & ? & ? & Hq & Hcd & Hfu & Hv); [done..|].
      destruct (handleRetry_resume_fields r (this s)) as [d Hd].
      cbn [this] in Hq, Hcd, Hfu, Hv. rewrite Hd in Hq, Hcd, Hfu, Hv.
      split_and!; try done.
      * constructor; [by eexists|done].
      * rewrite Hq. crawler_fields. by rewrite <- (assoc_L (++)).
Qed.

(** X6: When the loop completes, the queue is empty and no fetch is
    outstanding.  From then on nothing is dispatched or fetched: the only
    events left are requeues of retries whose delay had not passed, and
    they pile up in a queue that nobody reads, while the crawl record, the
    failed record and the visited set stay as they were written out. *)
Theorem completion_leaves_late_retries_unprocessed
    (startUrl0 : option string) (mc mr : option Z) (c : WebCrawler)
    (t1 t2 : list event) (s : session) :
  constructor startUrl0 mc mr = Constructed c →
  run (start c) (t1 ++ Finish :: t2) s →
  ∃ m, run (start c) t1 m
       ∧ urlQueue (this m) = [] ∧ fetching m = [] ∧ settling m = 0%nat
       ∧ Forall (λ e, ∃ u, e = Requeue u) t2
       ∧ urlQueue (this s) = requeued t2
       ∧ crawledData (this s) = crawledData (this m)
       ∧ failedUrls (this s) = failedUrls (this m)
       ∧ visitedUrls (this s) = visitedUrls (this m).
Proof.
  intros Hc (m & Hbefore & Hafter)%run_app.
  inversion Hafter as [|? ? m1 ? ? Hstep Hrest]; subst.
  destruct (flight_invariant_run _ _ _ _ _ _ Hc Hbefore) as [Hcount _].
  inversion Hstep as [| | |? c' _ Hit| | |]; subst.
  apply crawl_iteration_cases in Hit as (-> & Hqueue & Hactive).
  assert (Hidle : fetching m = [] ∧ settling m = 0%nat).
  { rewrite Hcount in Hactive. split; [|lia].
    destruct (fetching m); [done|]. cbn [length] in Hactive. lia. }
  destruct Hidle as [Hfe Hse].
  apply after_completion_run in Hrest
    as (Hall & _ & _ & _ & Hq & Hcd & Hfu & Hv); [|done..].
  cbn [this] in Hq, Hcd, Hfu, Hv. rewrite Hqueue in Hq.
  exists m. by split_and!.
Qed.

(** *** The first iterations *)

(** X8: With a ceiling of at least one, the first iteration of the loop on a
    freshly constructed crawler dispatches the seed: the seed becomes the
    only visited address, the queue is empty and one request is counted;
    the next iteration then waits for the initial delay of 100 ms. *)
Theorem first_iteration_dispatches_seed (startUrl0 : option string)
    (mc mr : option Z) (c : WebCrawler) :
  constructor startUrl0 mc mr = Constructed c →
  1 ≤ maxConcurrency c →
  ∃ c', crawl_iteration c = (c', Dispatched (startUrl c))
        ∧ visitedUrls c' = {[startUrl c]}
        ∧ urlQueue c' = []
        ∧ activeRequests c' = 1
        ∧ crawl_iteration c' = (c', Delayed (ms 100)).
Proof.
  intros Hc Hmc.
  pose proof (constructor_config _ _ _ _ Hc) as (_ & _ & Ha & _).
  apply constructor_Constructed in Hc as (_ & _ & _ & Hq & Hv & _ & _ & _ & Hd).
  destruct c as [seed dom vis queue ceil act retries rc cd fu delay].
  cbn [urlQueue activeRequests visitedUrls dynamicDelay maxConcurrency
       startUrl] in *.
  subst queue act vis delay.
  assert (Hlt : (0 <? ceil) = true) by (apply Z.ltb_lt; lia).
  eexists. split_and!.
  - unfold crawl_iteration. crawler_fields. cbn [length]. rewrite Hlt.
    cbn [orb andb Z.of_nat Pos.of_succ_nat Z.ltb Z.compare].
    rewrite decide_False by apply not_elem_of_empty. reflexivity.
  - crawler_fields. apply (right_id_L ∅ (∪)).
  - done.
  - done.
  - unfold crawl_iteration. crawler_fields. cbn [length Z.of_nat].
    change (0 <? 0) with false. change (0 <? 0 + 1) with true.
    cbn [orb].
    match goal with |- context [?a <? ceil] => by destruct (a <? ceil) end.
Qed.

(** *** A ceiling that admits nothing *)

(** X7: With [maxConcurrency] zero or negative the loop never dispatches the
    seed and never completes: all a session can do is wait for the delay
    of 100 ms, again and again, in the state the constructor built. *)
Theorem no_concurrency_no_progress (startUrl0 : option string)
    (mc mr : option Z) (c : WebCrawler) (t : list event) (s : session) :
  constructor startUrl0 mc mr = Constructed c →
  maxConcurrency c ≤ 0 →
  run (start c) t s →
  s = start c ∧ Forall (λ e, e = Delay (ms 100)) t.
Proof.
  intros Hc Hmc Hrun.
  pose proof (constructor_config _ _ _ _ Hc) as (_ & _ & Ha & _).
  apply constructor_Constructed in Hc as (_ & _ & _ & Hq & _ & _ & _ & _ & Hd).
  assert (Hit : crawl_iteration c = (c, Delayed (ms 100))).
  { unfold crawl_iteration. rewrite Hq, Ha, Hd. cbn [length].
    by rewrite (proj2 (Z.ltb_ge _ _) Hmc). }
  remember (start c) as s0 eqn:Hs0.
  induction Hrun as [|s e s1 t s2 Hstep _ IH]; [done|].
  assert (Hs1 : s1 = s ∧ e = Delay (ms 100)).
  { clear IH.
    destruct Hstep as [s c1 url _ Hit1|s c1 url _ Hit1|s c1 d _ Hit1|s c1 _ Hit1
                      |s f1 f2 url r c1 o Hfetching _|s n Hn|s r1 r2 r Hr];
      subst s; cbn [this start fetching settling retrying] in *.
    - rewrite Hit in Hit1. by simplify_eq.
    - rewrite Hit in Hit1. by simplify_eq.
    - rewrite Hit in Hit1. by simplify_eq.
    - rewrite Hit in Hit1. by simplify_eq.
    - by destruct f1.
    - done.
    - by destruct r1. }
  destruct Hs1 as [-> ->]. destruct (IH Hs0) as [-> Hall].
  split; [done|]. by constructor.
Qed.

End MoreSessions.


Lemma each_url_dispatched_at_most_once_witness :
  NoDup
    (dispatched
       (retry_events_before
        ++ Requeue "http://example.com" :: retry_events_after))
  ∧ ∀ u, u ∈ visitedUrls (this retry_session_end) ↔
         Dispatch u
         ∈ retry_events_before
           ++ Requeue "http://example.com" :: retry_events_after.
Proof.
  apply (each_url_dispatched_at_most_once (Some "http://example.com") None
           None example_crawler).
  - reflexivity.
  - exact retry_session_run.
Defined.


Example fetch_session_settling_run :
  run (start example_crawler)
    [Dispatch "http://example.com";
     Fetch "http://example.com" (Resolved fetched_page None)]
    fetch_session_settling.
Proof. crawl_step @step_dispatch. fetch_step. apply run_nil. Qed.

Example fetch_session_finally_run :
  run fetch_session_settling [Finally] fetch_session_end.
Proof. eapply run_cons; [by eapply step_finally | apply run_nil]. Qed.

Example late_retry_session_run :
  run (start example_crawler)
    (retry_events_before ++ Finish :: [Requeue "http://example.com"])
    late_retry_session_end.
Proof.
  crawl_step @step_dispatch. fetch_step.
  eapply run_cons; [by eapply step_finally |].
  crawl_step @step_finish.
  eapply run_cons.
  { eapply (step_requeue _ []
              [] {| retry_url := "http://example.com"; retry_headers := None;
                    retry_delay := Math_pow2 100 |}). reflexivity. }
  apply run_nil.
Qed.

Example no_concurrency_run :
  run (start no_concurrency_crawler) [Delay (ms 100); Delay (ms 100)]
    (start no_concurrency_crawler).
Proof.
  do 2 (eapply run_cons;
        [eapply (step_delay (start no_concurrency_crawler));
           [reflexivity | vm_compute; reflexivity] |]).
  apply run_nil.
Qed.

Lemma records_are_write_once_witness :
  (∀ u ls, crawledData (this fetch_session_settling) !! u = Some ls →
     crawledData (this fetch_session_end) !! u = Some ls)
  ∧ (∀ u n, failedUrls (this fetch_session_settling) !! u = Some n →
       failedUrls (this fetch_session_end) !! u = Some n).
Proof.
  apply (records_are_write_once (Some "http://example.com") None None
           example_crawler
           [Dispatch "http://example.com";
            Fetch "http://example.com" (Resolved fetched_page None)]
           [Finally] fetch_session_settling fetch_session_end).
  - reflexivity.
  - exact fetch_session_settling_run.
  - exact fetch_session_finally_run.
Defined.

Lemma completion_leaves_late_retries_unprocessed_witness :
  ∃ m, run (start example_crawler) retry_events_before m
       ∧ urlQueue (this m) = [] ∧ fetching m = [] ∧ settling m = 0%nat
       ∧ Forall (λ e, ∃ u, e = Requeue u) [Requeue "http://example.com"]
       ∧ urlQueue (this late_retry_session_end)
         = requeued [Requeue "http://example.com"]
       ∧ crawledData (this late_retry_session_end) = crawledData (this m)
       ∧ failedUrls (this late_retry_session_end) = failedUrls (this m)
       ∧ visitedUrls (this late_retry_session_end) = visitedUrls (this m).
Proof.
  apply (completion_leaves_late_retries_unprocessed
           (Some "http://example.com") None None example_crawler
           retry_events_before [Requeue "http://example.com"]
           late_retry_session_end).
  - reflexivity.
  - exact late_retry_session_run.
Defined.

Lemma no_concurrency_no_progress_witness :
  start no_concurrency_crawler = start no_concurrency_crawler
  ∧ Forall (λ e, e = Delay (ms 100)) [Delay (ms 100); Delay (ms 100)].
Proof.
  apply (no_concurrency_no_progress (Some "http://example.com") (Some 0) None
           no_concurrency_crawler [Delay (ms 100); Delay (ms 100)]
           (start no_concurrency_crawler)).
  - reflexivity.
  - vm_compute. discriminate.
  - exact no_concurrency_run.
Defined.

Lemma session_never_exhausts_retries_witness :
  failedUrls (this retry_session_end) = ∅
  ∧ ∀ u n, retryCounts (this retry_session_end) !! u = Some n → n = 1.
Proof.
  apply (session_never_exhausts_retries (Some "http://example.com") None None
           example_crawler
           (retry_events_before
            ++ Requeue "http://example.com" :: retry_events_after)
           retry_session_end).
  - reflexivity.
  - vm_compute. discriminate.
  - exact retry_session_run.
Defined.

Lemma first_iteration_dispatches_seed_witness :
  ∃ c', crawl_iteration example_crawler
        = (c', Dispatched (startUrl example_crawler))
        ∧ visitedUrls c' = {[startUrl example_crawler]}
        ∧ urlQueue c' = []
        ∧ activeRequests c' = 1
        ∧ crawl_iteration c' = (c', Delayed (ms 100)).
Proof.
  apply (first_iteration_dispatches_seed (Some "http://example.com") None
           None example_crawler).
  - reflexivity.
  - vm_compute. discriminate.
Defined.
